(** * The SWAP accounting core of Swarm: balance ledger, cheque issuance,
      persisted state and the bounded-retry contract deployment.

    The development follows [swap/swap.go].  Go's [int64] and [uint64] are
    integers of [Z] with the wrap-around written out, Go maps are finite maps,
    the [error] results are optional errors, and the mutable [Swap] object is
    threaded explicitly through a small state monad.  Everything the ledger
    only calls (the state store, the price oracle, the signer, the peer
    transport and the chain backend) is an explicit interface. *)

From Stdlib Require Import ZArith DecimalString.
From stdpp Require Import base option list gmap strings fin_maps.

Local Open Scope Z_scope.

(** ** Machine integers *)

Module Int.

(** [int64] arithmetic: the two's complement representative of [z]. *)
Definition wrap64 (z : Z) : Z := (z + 2 ^ 63) mod 2 ^ 64 - 2 ^ 63.

(** [uint64] arithmetic, and the conversion [uint64(x)]. *)
Definition wrapu64 (z : Z) : Z := z mod 2 ^ 64.

Definition in_int64 (z : Z) : Prop := - 2 ^ 63 <= z < 2 ^ 63.
Definition in_uint64 (z : Z) : Prop := 0 <= z < 2 ^ 64.

(** [strconv.FormatInt(z, 10)] and the [%v] verb on an integer. *)
Definition FormatInt (z : Z) : string := NilZero.string_of_int (Z.to_int z).

#[global] Arguments wrap64 : simpl never.
#[global] Arguments wrapu64 : simpl never.
#[global] Arguments FormatInt : simpl never.

End Int.
Import Int.

(** ** Errors *)

(** A Go [error] value: the store's sentinel [state.ErrNotFound], or an error
    made from a message ([errors.New]).  [nil] is [None] of [option error]. *)
Inductive error :=
| ErrNotFound
| ErrorString (msg : string).

#[global] Instance error_eq_dec : EqDecision error.
Proof. solve_decision. Defined.

(** ** Identities, addresses, cheques *)

(** [enode.ID] is a 256-bit value and [common.Address] a 160-bit value. *)
Abbreviation ID := Z.
Abbreviation Address := Z.

(** [Cheque], with the fields of the embedded [ChequeParams]. *)
Record Cheque := mkCheque {
  Contract : Address;
  Beneficiary : Address;
  Serial : Z;
  Amount : Z;
  Honey : Z;
  Timeout : Z;
  Sig : list Byte.byte
}.

(** ** The state store *)

(** The two kinds of value the ledger persists. *)
Inductive value :=
| VInt64 (z : Z)
| VCheque (c : Cheque).

(** Modelled from the spec: the [state.Store] behind [stateStore] is injected
    and its implementation is not part of the sources.  It is a string-keyed
    table with [Get(key) -> value, notFoundError|otherError],
    [Put(key, value) -> error] and [Keys(prefix) -> []key].  An error other than
    not-found is an outcome the environment chooses: [faults] schedules, for
    each coming store operation in turn, whether it fails (with which message);
    an operation that fails does nothing else (no torn writes). *)
Record Store := mkStore {
  data : gmap string value;
  faults : list (option string)
}.

(** Modelled from the spec: the outcome the environment has scheduled for
    the next operation of the [state.Store]. *)
Definition Store_next (st : Store) : option string * Store :=
  match faults st with
  | [] => (None, st)
  | f :: fs => (f, mkStore (data st) fs)
  end.

(** Modelled from the spec: [Get(key) -> value, notFoundError|otherError] of
    the [state.Store]. *)
Definition Store_Get (key : string) (st : Store) : (error + value) * Store :=
  let '(f, st') := Store_next st in
  match f with
  | Some msg => (inl (ErrorString msg), st')
  | None =>
      match data st' !! key with
      | Some v => (inr v, st')
      | None => (inl ErrNotFound, st')
      end
  end.

(** Modelled from the spec: [Put(key, value) -> error] of the [state.Store]. *)
Definition Store_Put (key : string) (v : value) (st : Store) : option error * Store :=
  let '(f, st') := Store_next st in
  match f with
  | Some msg => (Some (ErrorString msg), st')
  | None => (None, mkStore (<[key := v]> (data st')) (faults st'))
  end.

(** Modelled from the spec: [Keys(prefix) -> []key] of the [state.Store]; the
    keys come in no particular order. *)
Definition Store_Keys (prefix : string) (st : Store) : (list string * option error) * Store :=
  let '(f, st') := Store_next st in
  match f with
  | Some msg => (([], Some (ErrorString msg)), st')
  | None => ((filter (λ k, String.prefix prefix k = true) (elements (dom (data st'))), None), st')
  end.

(** ** Everything the ledger only calls *)

(** [EmitChequeMsg], the message that carries a cheque to a peer. *)
Record EmitChequeMsg := mkEmitChequeMsg { emit_Cheque : Cheque }.

(** [bind.TransactOpts], as far as [deploy] fills it. *)
Record TransactOpts := mkTransactOpts { From : Address; Value : Z }.

(** The collaborators of the ledger and the constants declared outside
    [swap.go].  [World] is the state of the environment (oracle, transport,
    chain); every call may change it and may fail.
    - [ID_String] is [enode.ID.String] and [HexID] is [enode.HexID], which
      panics ([None]) on a string that is not an identity;
    - [peer_beneficiary] and [peer_Send] stand for the peer that
      [getPeer] returns: its [beneficiary] field and its [Send] method;
    - [oracle_GetPrice] is [PriceOracle.GetPrice];
    - [cheque_Sign c key] is [c.Sign(key)]; [crypto_PublicKey] is the public
      half of a private key and [crypto_PubkeyToAddress] its address;
    - [swap_Deploy] is [swap.Deploy] of the contract bindings (it returns the
      contract reference, the transaction and the error) and
      [bind_WaitDeployed] is [bind.WaitDeployed]. *)
Class Externals := {
  World : Type;
  ID_String : ID → string;
  HexID : string → option ID;
  DefaultInitialDepositAmount : Z;
  DefaultPaymentThreshold : Z;
  DefaultDisconnectThreshold : Z;
  defaultCashInDelay : Z;
  defaultHarddepositTimeoutDuration : Z;
  deployRetries : Z;
  deployDelay : Z;
  peer_beneficiary : World → ID → Address;
  peer_Send : ID → EmitChequeMsg → World → option error * World;
  oracle_GetPrice : Z → World → (error + Z) * World;
  cheque_Sign : Cheque → Z → list Byte.byte * option error;
  crypto_PublicKey : Z → Z;
  crypto_PubkeyToAddress : Z → Address;
  swap_Deploy : TransactOpts → Address → Z → World → (option Z * Z * option error) * World;
  bind_WaitDeployed : Z → World → (Address * option error) * World
}.

(** ** What the code does besides changing its state: log records and sleeps *)

Inductive level := LvlError | LvlWarn | LvlInfo | LvlDebug.

Inductive logval :=
| LStr (s : string)
| LInt (z : Z)
| LErr (e : error).

Inductive event :=
| Log (lvl : level) (msg : string) (ctx : list logval)
| Sleep (d : Z).

(** ** The [Swap] object *)

Record Owner := mkOwner {
  owner_Contract : Address;
  owner_address : Address;
  privateKey : Z;
  publicKey : Z
}.

Record Params := mkParams { InitialDepositAmount : Z }.

Section Ledger.
Context `{Ext : Externals}.

Record Swap := mkSwap {
  stateStore : Store;
  balances : gmap ID Z;
  cheques : gmap ID (option Cheque);
  owner : Owner;
  params : Params;
  contractReference : option Z;
  paymentThreshold : Z;
  disconnectThreshold : Z;
  world : World;
  trace : list event
}.

Definition set_stateStore (st : Store) (s : Swap) : Swap :=
  mkSwap st (balances s) (cheques s) (owner s) (params s) (contractReference s)
    (paymentThreshold s) (disconnectThreshold s) (world s) (trace s).
Definition set_balances (b : gmap ID Z) (s : Swap) : Swap :=
  mkSwap (stateStore s) b (cheques s) (owner s) (params s) (contractReference s)
    (paymentThreshold s) (disconnectThreshold s) (world s) (trace s).
Definition set_cheques (c : gmap ID (option Cheque)) (s : Swap) : Swap :=
  mkSwap (stateStore s) (balances s) c (owner s) (params s) (contractReference s)
    (paymentThreshold s) (disconnectThreshold s) (world s) (trace s).
Definition set_owner (o : Owner) (s : Swap) : Swap :=
  mkSwap (stateStore s) (balances s) (cheques s) o (params s) (contractReference s)
    (paymentThreshold s) (disconnectThreshold s) (world s) (trace s).
Definition set_contractReference (r : option Z) (s : Swap) : Swap :=
  mkSwap (stateStore s) (balances s) (cheques s) (owner s) (params s) r
    (paymentThreshold s) (disconnectThreshold s) (world s) (trace s).
Definition set_world (w : World) (s : Swap) : Swap :=
  mkSwap (stateStore s) (balances s) (cheques s) (owner s) (params s) (contractReference s)
    (paymentThreshold s) (disconnectThreshold s) w (trace s).
Definition set_trace (t : list event) (s : Swap) : Swap :=
  mkSwap (stateStore s) (balances s) (cheques s) (owner s) (params s) (contractReference s)
    (paymentThreshold s) (disconnectThreshold s) (world s) t.

(** A method of [*Swap]: it reads and changes the object, and returns a
    result unless it panics ([None]). *)
Definition M (A : Type) : Type := Swap → option (A * Swap).

Definition ret {A} (a : A) : M A := λ s, Some (a, s).
Definition bind {A B} (m : M A) (k : A → M B) : M B :=
  λ s, match m s with
       | Some (a, s') => k a s'
       | None => None
       end.
Definition panic {A} : M A := λ _, None.
Definition gets {A} (f : Swap → A) : M A := λ s, Some (f s, s).
Definition modify (f : Swap → Swap) : M unit := λ s, Some (tt, f s).

End Ledger.

Notation "x <- m ;; k" := (bind m (λ x, k))
  (at level 100, m at next level, right associativity).
Notation "m ;; k" := (bind m (λ _, k))
  (at level 100, right associativity).

Section Ledger.
Context `{Ext : Externals}.

Definition log (lvl : level) (msg : string) (ctx : list logval) : M unit :=
  modify (λ s, set_trace (trace s ++ [Log lvl msg ctx]) s).

Definition sleep (d : Z) : M unit :=
  modify (λ s, set_trace (trace s ++ [Sleep d]) s).

(** A call on [s.stateStore]. *)
Definition store_op {A} (op : Store → A * Store) : M A :=
  λ s, let '(a, st) := op (stateStore s) in Some (a, set_stateStore st s).

(** A call into the environment. *)
Definition world_op {A} (op : World → A * World) : M A :=
  λ s, let '(a, w) := op (world s) in Some (a, set_world w s).

(** [stateStore.Get(key, &peerBalance)] into [var peerBalance int64]: on an
    error the variable keeps its zero value. *)
Definition decode_int64 (r : error + value) : Z * option error :=
  match r with
  | inr (VInt64 z) => (z, None)
  | inr (VCheque _) => (0, Some (ErrorString "cannot decode as int64"))
  | inl e => (0, Some e)
  end.

(** [stateStore.Get(key, &cheque)] into [var cheque *Cheque]. *)
Definition decode_cheque (r : error + value) : option Cheque * option error :=
  match r with
  | inr (VCheque c) => (Some c, None)
  | inr (VInt64 _) => (None, Some (ErrorString "cannot decode as cheque"))
  | inl e => (None, Some e)
  end.

Definition balancePrefix : string := "balance_".
Definition sentChequePrefix : string := "sent_cheque_".
Definition receivedChequePrefix : string := "received_cheque_".

Definition balanceKey (peer : ID) : string := balancePrefix +:+ ID_String peer.
Definition sentChequeKey (peer : ID) : string := sentChequePrefix +:+ ID_String peer.
Definition receivedChequeKey (peer : ID) : string := receivedChequePrefix +:+ ID_String peer.

(** [key[len(prefix):]] panics when the key is shorter than the prefix. *)
Definition keyToID (key prefix : string) : option ID :=
  if (String.length prefix <=? String.length key)%nat
  then HexID (String.substring (String.length prefix)
                        (String.length key - String.length prefix) key)
  else None.

(** [s.balances[peer]]: the zero value when the peer has no entry. *)
Definition balance_at (s : Swap) (peer : ID) : Z := default 0 (balances s !! peer).

(** [s.cheques[peer]]: [nil] when the peer has no entry. *)
Definition cheque_at (s : Swap) (peer : ID) : option Cheque :=
  default None (cheques s !! peer).

Definition loadBalance (peer : ID) : M (option error) :=
  bals <- gets balances ;;
  match bals !! peer with
  | Some _ => ret None
  | None =>
      r <- store_op (Store_Get (balanceKey peer)) ;;
      let '(peerBalance, err) := decode_int64 r in
      modify (λ s, set_balances (<[peer := peerBalance]> (balances s)) s) ;;
      ret err
  end.

Definition updateBalance (peer : ID) (amount : Z) : M (Z * option error) :=
  modify (λ s, set_balances (<[peer := wrap64 (balance_at s peer + amount)]> (balances s)) s) ;;
  peerBalance <- gets (λ s, balance_at s peer) ;;
  err <- store_op (Store_Put (balanceKey peer) (VInt64 peerBalance)) ;;
  match err with
  | Some _ => log LvlError "error while storing balance for peer" [LStr "peer"; LStr (ID_String peer)]
  | None => ret tt
  end ;;
  log LvlDebug "balance for peer after accounting"
      [LStr "peer"; LStr (ID_String peer); LStr "balance"; LStr (FormatInt peerBalance)] ;;
  ret (peerBalance, err).

Definition resetBalance (peerID : ID) (amount : Z) : M unit :=
  log LvlInfo "resetting balance for peer" [LStr "peer"; LStr (ID_String peerID); LStr "amount"; LInt amount] ;;
  updateBalance peerID amount ;;
  ret tt.

Definition loadLastSentCheque (peer : ID) : M (option error) :=
  chqs <- gets cheques ;;
  match chqs !! peer with
  | Some _ => ret None
  | None =>
      r <- store_op (Store_Get (sentChequeKey peer)) ;;
      let '(cheque, err) := decode_cheque r in
      modify (λ s, set_cheques (<[peer := cheque]> (cheques s)) s) ;;
      ret err
  end.

Definition signContent (cheque : Cheque) : M (list Byte.byte * option error) :=
  key <- gets (λ s, privateKey (owner s)) ;;
  ret (cheque_Sign cheque key).

Definition createCheque (peer : ID) : M (option Cheque * option error) :=
  beneficiary <- gets (λ s, peer_beneficiary (world s) peer) ;;
  peerBalance <- gets (λ s, balance_at s peer) ;;
  let honey := wrapu64 (wrap64 (- peerBalance)) in
  r <- world_op (oracle_GetPrice honey) ;;
  match r with
  | inl err =>
      log LvlError "error getting price from oracle" [LStr "err"; LErr err] ;;
      ret (None, Some err)
  | inr amount =>
      loadLastSentCheque peer ;;
      lastCheque <- gets (λ s, cheque_at s peer) ;;
      contract <- gets (λ s, owner_Contract (owner s)) ;;
      let '(serial, total) :=
        match lastCheque with
        | None => (1, amount)
        | Some last => (wrapu64 (Serial last + 1), wrapu64 (Amount last + amount))
        end in
      let cheque := mkCheque contract beneficiary serial total honey defaultCashInDelay [] in
      signed <- signContent cheque ;;
      let '(sig, err) := signed in
      ret (Some (mkCheque contract beneficiary serial total honey defaultCashInDelay sig), err)
  end.

Definition sendCheque (peer : ID) : M (option error) :=
  made <- createCheque peer ;;
  let '(created, err) := made in
  match err with
  | Some e =>
      log LvlError "error while creating cheque: %s" [LErr e] ;;
      ret err
  | None =>
      match created with
      | None => panic
      | Some cheque =>
          log LvlInfo "sending cheque"
              [LStr "serial"; LInt (Serial cheque); LStr "amount"; LInt (Amount cheque);
               LStr "beneficiary"; LInt (Beneficiary cheque); LStr "contract"; LInt (Contract cheque)] ;;
          modify (λ s, set_cheques (<[peer := Some cheque]> (cheques s)) s) ;;
          err <- store_op (Store_Put (sentChequeKey peer) (VCheque cheque)) ;;
          match err with
          | Some e =>
              log LvlError "error while storing the last cheque: %s" [LErr e] ;;
              ret err
          | None =>
              let emit := mkEmitChequeMsg cheque in
              resetBalance peer (wrap64 (Amount cheque)) ;;
              world_op (peer_Send peer emit)
          end
      end
  end.

Definition disconnectMessage (peer : ID) (threshold : Z) : string :=
  "balance for peer " +:+ ID_String peer +:+ " is over the disconnect threshold "
    +:+ FormatInt threshold +:+ ", disconnecting".

Definition Add (amount : Z) (peer : ID) : M (option error) :=
  err <- loadBalance peer ;;
  if decide (err ≠ None ∧ err ≠ Some ErrNotFound) then
    log LvlError "error while loading balance for peer" [LStr "peer"; LStr (ID_String peer)] ;;
    ret err
  else
    bal <- gets (λ s, balance_at s peer) ;;
    threshold <- gets disconnectThreshold ;;
    if threshold <=? bal then
      log LvlWarn (disconnectMessage peer threshold) [] ;;
      ret (Some (ErrorString (disconnectMessage peer threshold)))
    else
      updated <- updateBalance peer amount ;;
      let '(newBalance, err) := updated in
      match err with
      | Some _ => ret err
      | None =>
          pay <- gets paymentThreshold ;;
          if newBalance <=? wrap64 (- pay) then
            log LvlWarn "balance for peer went over the payment threshold, sending cheque"
                [LStr "peer"; LStr (ID_String peer); LStr "payment threshold"; LInt pay] ;;
            err <- sendCheque peer ;;
            match err with
            | Some e =>
                log LvlError "error while sending cheque to peer"
                    [LStr "peer"; LStr (ID_String peer); LStr "error"; LErr e] ;;
                ret err
            | None =>
                log LvlInfo "successfully sent cheque to peer" [LStr "peer"; LStr (ID_String peer)] ;;
                ret err
            end
          else ret err
      end.

Definition Balance (peer : ID) : M (Z * option error) :=
  bals <- gets balances ;;
  match bals !! peer with
  | Some peerBalance => ret (peerBalance, None)
  | None =>
      r <- store_op (Store_Get (balanceKey peer)) ;;
      ret (decode_int64 r)
  end.

(** The second loop of [BalancePeers]: a store key that decodes to an
    identity not marked in [knownPeers] is appended.  [knownPeers] is not
    updated here. *)
Fixpoint appendStorePeers (knownPeers : gmap ID bool) (storeBalancePeers : list string)
    (peers : list ID) : option (list ID) :=
  match storeBalancePeers with
  | [] => Some peers
  | storeBalancePeer :: rest =>
      match keyToID storeBalancePeer balancePrefix with
      | None => None
      | Some peerID =>
          match knownPeers !! peerID with
          | Some _ => appendStorePeers knownPeers rest peers
          | None => appendStorePeers knownPeers rest (peers ++ [peerID])
          end
      end
  end.

(** The first loop of [BalancePeers], over the entries of [s.balances] in the
    order the map yields them. *)
Definition collectMemoryPeers (bals : gmap ID Z) : list ID * gmap ID bool :=
  foldl (λ acc peerID, (acc.1 ++ [peerID], <[peerID := true]> acc.2))
        ([], ∅) (map_to_list bals).*1.

Definition BalancePeers : M (list ID * option error) :=
  bals <- gets balances ;;
  let '(peers, knownPeers) := collectMemoryPeers bals in
  r <- store_op (Store_Keys balancePrefix) ;;
  let '(storeBalancePeers, err) := r in
  match err with
  | Some _ => ret ([], err)
  | None =>
      match appendStorePeers knownPeers storeBalancePeers peers with
      | None => panic
      | Some peers => ret (peers, None)
      end
  end.

(** The loop of [deployLoop] from iteration [try] on, with [n] iterations
    left; [addr] and [err] are the named results as the iterations so far
    left them. *)
Fixpoint deployLoop_from (n : nat) (try : Z) (addr : Address) (err : option error)
    (opts : TransactOpts) (owner : Address) (timeout : Z) : M (Address * option error) :=
  match n with
  | O => ret (addr, err)
  | S n' =>
      (if 0 <? try then sleep deployDelay else ret tt) ;;
      d <- world_op (swap_Deploy opts owner timeout) ;;
      let '(ref, tx, err) := d in
      modify (set_contractReference ref) ;;
      match err with
      | Some e =>
          log LvlWarn "can't send chequebook deploy tx" [LStr "try"; LInt try; LStr "error"; LErr e] ;;
          deployLoop_from n' (try + 1) addr err opts owner timeout
      | None =>
          w <- world_op (bind_WaitDeployed tx) ;;
          let '(addr, err) := w in
          match err with
          | Some e =>
              log LvlWarn "chequebook deploy error" [LStr "try"; LInt try; LStr "error"; LErr e] ;;
              deployLoop_from n' (try + 1) addr err opts owner timeout
          | None => ret (addr, None)
          end
      end
  end.

Definition deployLoop (opts : TransactOpts) (owner : Address) (timeout : Z)
    : M (Address * option error) :=
  deployLoop_from (Z.to_nat deployRetries) 0 0 None opts owner timeout.

Definition deploy : M (option error) :=
  own <- gets owner ;;
  prm <- gets params ;;
  let opts := mkTransactOpts (owner_address own) (wrap64 (InitialDepositAmount prm)) in
  log LvlInfo "deploying new swap" [LStr "owner"; LInt (From opts)] ;;
  r <- deployLoop opts (owner_address own) defaultHarddepositTimeoutDuration ;;
  let '(address, err) := r in
  match err with
  | Some e =>
      log LvlError "unable to deploy swap" [LStr "error"; LErr e] ;;
      ret err
  | None =>
      modify (λ s, set_owner (mkOwner address (owner_address (owner s))
                                      (privateKey (owner s)) (publicKey (owner s))) s) ;;
      log LvlInfo "swap deployed" [LStr "address"; LInt address; LStr "owner"; LInt (From opts)] ;;
      ret err
  end.

Definition NewDefaultParams : Params := mkParams DefaultInitialDepositAmount.

Definition createOwner (prvkey : Z) (contract : Address) : Owner :=
  mkOwner contract (crypto_PubkeyToAddress (crypto_PublicKey prvkey)) prvkey
          (crypto_PublicKey prvkey).

(** [New]: a session over a store, with empty caches; [w] is the environment
    the backend and the oracle live in. *)
Definition New (stateStore : Store) (prvkey : Z) (contract : Address) (w : World) : Swap :=
  mkSwap stateStore ∅ ∅ (createOwner prvkey contract) NewDefaultParams None
         DefaultPaymentThreshold DefaultDisconnectThreshold w [].

End Ledger.

(** ** The other accessors of the ledger *)

Section Accessors.
Context `{Ext : Externals}.

(** The loop of [Balances] over the peers still to read; [collected] is the
    map built so far.  A [nil] map is the empty map. *)
Fixpoint collectBalances (swapPeers : list ID) (collected : gmap ID Z)
    : M (gmap ID Z * option error) :=
  match swapPeers with
  | [] => ret (collected, None)
  | peer :: rest =>
      r <- Balance peer ;;
      let '(peerBalance, err) := r in
      match err with
      | Some _ => ret (∅, err)
      | None => collectBalances rest (<[peer := peerBalance]> collected)
      end
  end.

Definition Balances : M (gmap ID Z * option error) :=
  r <- BalancePeers ;;
  let '(swapPeers, err) := r in
  match err with
  | Some _ => ret (∅, err)
  | None => collectBalances swapPeers ∅
  end.

(** [loadLastReceivedCheque]: the error of the store is dropped, and the
    result is [nil] unless a cheque was read. *)
Definition loadLastReceivedCheque (peer : ID) : M (option Cheque) :=
  r <- store_op (Store_Get (receivedChequeKey peer)) ;;
  ret (decode_cheque r).1.

(** [saveLastReceivedCheque], for a cheque that is not [nil]. *)
Definition saveLastReceivedCheque (peer : ID) (cheque : Cheque) : M (option error) :=
  store_op (Store_Put (receivedChequeKey peer) (VCheque cheque)).

End Accessors.

(** ** What the properties below observe *)

Section Observations.
Context `{Ext : Externals}.

(** The balance the ledger holds for a peer, as [Balance] reports it: the
    cached one, else the stored one, zero when the store has none.  Undefined
    when the store cannot be read. *)
Definition held_balance (s : Swap) (peer : ID) : option Z :=
  match Balance peer s with
  | Some ((b, None), _) | Some ((b, Some ErrNotFound), _) => Some b
  | _ => None
  end.

(** The last cheque sent to a peer: the cached one, else the stored one,
    [Some None] when there is none.  Undefined when the store cannot be read. *)
Definition last_sent (s : Swap) (peer : ID) : option (option Cheque) :=
  match cheques s !! peer with
  | Some last => Some last
  | None =>
      match decode_cheque (Store_Get (sentChequeKey peer) (stateStore s)).1 with
      | (last, None) | (last, Some ErrNotFound) => Some last
      | _ => None
      end
  end.


(** A restart: a new session over the store the old one leaves. *)
Definition reload (s : Swap) : Swap :=
  New (stateStore s) (privateKey (owner s)) (owner_Contract (owner s)) (world s).

(** A sequence of [Add] calls for one peer. *)
Inductive AddSeq (peer : ID) : Swap → list Z → Swap → Prop :=
| AddSeq_nil s : AddSeq peer s [] s
| AddSeq_cons s amount amounts r s1 s2 :
    Add amount peer s = Some (r, s1) →
    AddSeq peer s1 amounts s2 →
    AddSeq peer s (amount :: amounts) s2.

(** A sequence of [Add] calls for one peer whose balance is below the
    disconnect threshold whenever a call starts. *)
Inductive AddRun (peer : ID) : Swap → list Z → Swap → Prop :=
| AddRun_nil s : AddRun peer s [] s
| AddRun_cons s amount amounts b r s1 s2 :
    held_balance s peer = Some b →
    b < disconnectThreshold s →
    Add amount peer s = Some (r, s1) →
    AddRun peer s1 amounts s2 →
    AddRun peer s (amount :: amounts) s2.

(** The amount [resetBalance] reports when it credits a balance. *)
Definition reset_amount (ev : event) : Z :=
  match ev with
  | Log LvlInfo msg [LStr _; LStr _; LStr _; LInt amount] =>
      if String.eqb msg "resetting balance for peer" then amount else 0
  | _ => 0
  end.

(** The sum of the credits a trace reports. *)
Definition credited (evs : list event) : Z :=
  foldr (λ ev acc, reset_amount ev + acc) 0 evs.

(** The serial [sendCheque] reports for a cheque it has created. *)
Definition issued_serial (ev : event) : option Z :=
  match ev with
  | Log LvlInfo msg (LStr _ :: LInt serial :: _) =>
      if String.eqb msg "sending cheque" then Some serial else None
  | _ => None
  end.

(** The serials of the cheques a trace reports, in order. *)
Definition issued_serials (evs : list event) : list Z :=
  omap issued_serial evs.

(** The serials [first], [first+1], ... of [n] consecutive cheques. *)
Fixpoint serials_from (first : Z) (n : nat) : list Z :=
  match n with
  | O => []
  | S n' => wrapu64 first :: serials_from (first + 1) n'
  end.

(** The records [Add] writes when it accounts a new balance and when it
    decides to settle. *)
Definition accounted (peer : ID) (newBalance : Z) : event :=
  Log LvlDebug "balance for peer after accounting"
      [LStr "peer"; LStr (ID_String peer); LStr "balance"; LStr (FormatInt newBalance)].

Definition settling (peer : ID) (pay : Z) : event :=
  Log LvlWarn "balance for peer went over the payment threshold, sending cheque"
      [LStr "peer"; LStr (ID_String peer); LStr "payment threshold"; LInt pay].

(** The records [createCheque], [sendCheque], [resetBalance] and [Add] write
    around a cheque. *)
Definition price_failed (e : error) : event :=
  Log LvlError "error getting price from oracle" [LStr "err"; LErr e].
Definition creation_failed (e : error) : event :=
  Log LvlError "error while creating cheque: %s" [LErr e].
Definition sending (c : Cheque) : event :=
  Log LvlInfo "sending cheque"
      [LStr "serial"; LInt (Serial c); LStr "amount"; LInt (Amount c);
       LStr "beneficiary"; LInt (Beneficiary c); LStr "contract"; LInt (Contract c)].
Definition storing_failed (e : error) : event :=
  Log LvlError "error while storing the last cheque: %s" [LErr e].
Definition resetting (peer : ID) (amount : Z) : event :=
  Log LvlInfo "resetting balance for peer"
      [LStr "peer"; LStr (ID_String peer); LStr "amount"; LInt amount].
Definition balance_not_stored (peer : ID) : event :=
  Log LvlError "error while storing balance for peer" [LStr "peer"; LStr (ID_String peer)].
Definition cheque_failed (peer : ID) (e : error) : event :=
  Log LvlError "error while sending cheque to peer"
      [LStr "peer"; LStr (ID_String peer); LStr "error"; LErr e].
Definition cheque_sent (peer : ID) : event :=
  Log LvlInfo "successfully sent cheque to peer" [LStr "peer"; LStr (ID_String peer)].

Definition load_failed (peer : ID) : event :=
  Log LvlError "error while loading balance for peer" [LStr "peer"; LStr (ID_String peer)].
Definition disconnecting (peer : ID) (threshold : Z) : event :=
  Log LvlWarn (disconnectMessage peer threshold) [].

(** [b] is what [s.balances[peer]] holds once [loadBalance] has run on [s],
    [e] is the error it returns and [st] the store it leaves. *)
Definition loaded_balance (s : Swap) (peer : ID) (b : Z) (e : option error) (st : Store)
    : Prop :=
  (balances s !! peer = Some b ∧ e = None ∧ st = stateStore s) ∨
  (balances s !! peer = None ∧
   st = (Store_Get (balanceKey peer) (stateStore s)).2 ∧
   (b, e) = decode_int64 (Store_Get (balanceKey peer) (stateStore s)).1).

(** The sum of a list of amounts. *)
Definition sumZ (amounts : list Z) : Z := foldr Z.add 0 amounts.

(** [last] is what [s.cheques[peer]] holds once [loadLastSentCheque] has run
    on [s], and [st] is the store it leaves. *)
Definition loaded_last (s : Swap) (peer : ID) (last : option Cheque) (st : Store) : Prop :=
  (cheques s !! peer = Some last ∧ st = stateStore s) ∨
  (cheques s !! peer = None ∧
   st = (Store_Get (sentChequeKey peer) (stateStore s)).2 ∧
   last = (decode_cheque (Store_Get (sentChequeKey peer) (stateStore s)).1).1).

(** [c] is the cheque that follows [last] for the converted [amount]. *)
Definition follows (c : Cheque) (last : option Cheque) (amount : Z) : Prop :=
  match last with
  | None => Serial c = 1 ∧ Amount c = amount
  | Some l => Serial c = wrapu64 (Serial l + 1) ∧ Amount c = wrapu64 (Amount l + amount)
  end.

(** A cheque before it is signed. *)
Definition unsigned (c : Cheque) : Cheque :=
  mkCheque (Contract c) (Beneficiary c) (Serial c) (Amount c) (Honey c) (Timeout c) [].


(** The store fails, with [e], the one read or the one write of the balance
    that [Add amount peer] performs on [s]: the read of a balance that is not
    cached, or the write of the new balance of a call that is not rejected. *)
Definition store_error_in_Add (s : Swap) (amount : Z) (peer : ID) (e : error) : Prop :=
  (balances s !! peer = None ∧
   (decode_int64 (Store_Get (balanceKey peer) (stateStore s)).1).2 = Some e ∧
   e ≠ ErrNotFound) ∨
  (∃ b e0 st0,
      loaded_balance s peer b e0 st0 ∧ (e0 = None ∨ e0 = Some ErrNotFound) ∧
      b < disconnectThreshold s ∧
      (Store_Put (balanceKey peer) (VInt64 (wrap64 (b + amount))) st0).1 = Some e).

(** One failed deployment attempt: the transaction could not be submitted, or
    it was submitted and its confirmation failed. *)
Inductive failure :=
| SubmitFailed (e : error)
| ConfirmFailed (e : error).

Definition failure_error (f : failure) : error :=
  match f with SubmitFailed e | ConfirmFailed e => e end.

(** The error the named result [err] holds after the failures [fs]. *)
Definition error_after (err : option error) (fs : list failure) : option error :=
  match last fs with
  | Some f => Some (failure_error f)
  | None => err
  end.

(** The backend, from state [w], fails the attempts listed in [fs], one after
    the other, and is then in state [w']. *)
Inductive fails (opts : TransactOpts) (owner : Address) (timeout : Z)
    : World → list failure → World → Prop :=
| fails_nil w : fails opts owner timeout w [] w
| fails_submit w ref tx e w1 fs w2 :
    swap_Deploy opts owner timeout w = ((ref, tx, Some e), w1) →
    fails opts owner timeout w1 fs w2 →
    fails opts owner timeout w (SubmitFailed e :: fs) w2
| fails_confirm w ref tx w0 a e w1 fs w2 :
    swap_Deploy opts owner timeout w = ((ref, tx, None), w0) →
    bind_WaitDeployed tx w0 = ((a, Some e), w1) →
    fails opts owner timeout w1 fs w2 →
    fails opts owner timeout w (ConfirmFailed e :: fs) w2.

(** The backend, from state [w], deploys the contract at [addr]. *)
Definition succeeds (opts : TransactOpts) (owner : Address) (timeout : Z)
    (w : World) (addr : Address) (w' : World) : Prop :=
  ∃ ref tx w0, swap_Deploy opts owner timeout w = ((ref, tx, None), w0) ∧
               bind_WaitDeployed tx w0 = ((addr, None), w').

(** What [deployLoop] does besides calling the backend when the attempts from
    iteration [try] on fail: a sleep before every attempt but the very first,
    and a warning after each. *)
Fixpoint failure_events (try : Z) (fs : list failure) : list event :=
  match fs with
  | [] => []
  | f :: fs' =>
      (if 0 <? try then [Sleep deployDelay] else []) ++
      Log LvlWarn (match f with
                   | SubmitFailed _ => "can't send chequebook deploy tx"
                   | ConfirmFailed _ => "chequebook deploy error"
                   end)
          [LStr "try"; LInt try; LStr "error"; LErr (failure_error f)]
      :: failure_events (try + 1) fs'
  end.

(** The delays a trace records, in order. *)
Definition sleeps (evs : list event) : list Z :=
  omap (λ ev, match ev with Sleep d => Some d | Log _ _ _ => None end) evs.

(** The keys of the store under the balance prefix, and the peers the store
    enumerates: the identities these keys decode to. *)
Definition stored_balance_keys (st : Store) : list string :=
  filter (λ k, String.prefix balancePrefix k = true) (elements (dom (data st))).

Definition store_peers (st : Store) : list (option ID) :=
  (λ key, keyToID key balancePrefix) <$> stored_balance_keys st.

(** A key under the balance prefix is the balance key of the identity it
    decodes to. *)
Definition balance_key_ok (key : string) : Prop :=
  ∃ peer, keyToID key balancePrefix = Some peer ∧ balanceKey peer = key.

End Observations.

(** ** What the further properties observe *)

Section MoreObservations.
Context `{Ext : Externals}.

(** Everything the ledger keeps for a peer [q], in memory and in the store,
    is the same in [s'] as in [s]. *)
Definition same_for (q : ID) (s s' : Swap) : Prop :=
  balances s' !! q = balances s !! q ∧
  cheques s' !! q = cheques s !! q ∧
  data (stateStore s') !! balanceKey q = data (stateStore s) !! balanceKey q ∧
  data (stateStore s') !! sentChequeKey q = data (stateStore s) !! sentChequeKey q ∧
  data (stateStore s') !! receivedChequeKey q
  = data (stateStore s) !! receivedChequeKey q.


(** The stored balance keys all decode, to these identities, in this order. *)
Definition decoded_keys (st : Store) : option (list ID) :=
  mapM (λ key, keyToID key balancePrefix) (stored_balance_keys st).

(** No call of the run settles: the balance each call reaches, from [b] on,
    stays above minus the payment threshold [pay]. *)
Fixpoint above_payment (pay b : Z) (amounts : list Z) : Prop :=
  match amounts with
  | [] => True
  | amount :: rest =>
      wrap64 (- pay) < wrap64 (b + amount) ∧ above_payment pay (wrap64 (b + amount)) rest
  end.




End MoreObservations.

(** ** Proximity bins to sync with a peer ([syncer] package) *)

Module Syncer.

(** [syncBins]; Go's [int] is taken 64 bits wide. *)
Definition syncBins (peerPO depth max : Z) : Z * Z :=
  if peerPO <? depth then (peerPO, wrap64 (peerPO + 1)) else (depth, wrap64 (max + 1)).

(** The loop of [intRange] from [i] on, with at most [n] iterations left. *)
Fixpoint intRange_loop (n : nat) (i end_ : Z) (r : list Z) : list Z :=
  match n with
  | O => r
  | S n' =>
      if i <? end_ then intRange_loop n' (wrap64 (i + 1)) end_ (r ++ [wrapu64 i]) else r
  end.

(** [intRange]: the loop ends after [end - start] iterations at the latest. *)
Definition intRange (start end_ : Z) : list Z :=
  intRange_loop (Z.to_nat (end_ - start)) start end_ [].

Definition syncSubscriptionsDiff (peerPO prevDepth newDepth max : Z) : list Z * list Z :=
  let '(newStart, newEnd) := syncBins peerPO newDepth max in
  if prevDepth <? 0 then (intRange newStart newEnd, [])
  else
    let '(prevStart, prevEnd) := syncBins peerPO prevDepth max in
    let subBins := if newStart <? prevStart then intRange newStart prevStart else [] in
    let quitBins := if prevStart <? newStart then intRange prevStart newStart else [] in
    let quitBins := if newEnd <? prevEnd then quitBins ++ intRange newEnd prevEnd
                    else quitBins in
    let subBins := if prevEnd <? newEnd then subBins ++ intRange prevEnd newEnd
                   else subBins in
    (subBins, quitBins).

(** The bins a peer at proximity [peerPO] is synced on at depth [depth]. *)
Definition bins (peerPO depth max : Z) : list Z :=
  intRange (syncBins peerPO depth max).1 (syncBins peerPO depth max).2.

End Syncer.

(** ** A concrete environment, to run the ledger on *)

Module Demo.

(** The environment: whether the oracle and the transport are down, the
    messages delivered so far, and the number of deployment attempts that
    will still fail. *)
Record Env := mkEnv {
  oracle_down : bool;
  send_down : bool;
  outbox : list (ID * EmitChequeMsg);
  chain_failures : nat
}.

Definition parseID (s : string) : option ID :=
  Z.of_int <$> NilZero.int_of_string s.

(** The oracle prices honey one to one. *)
Definition getPrice (honey : Z) (w : Env) : (error + Z) * Env :=
  if oracle_down w then (inl (ErrorString "no price"), w) else (inr honey, w).

Definition send (peer : ID) (msg : EmitChequeMsg) (w : Env) : option error * Env :=
  if send_down w then (Some (ErrorString "peer unreachable"), w)
  else (None, mkEnv (oracle_down w) (send_down w) (outbox w ++ [(peer, msg)]) (chain_failures w)).

Definition deployTx (opts : TransactOpts) (owner : Address) (timeout : Z) (w : Env)
    : (option Z * Z * option error) * Env :=
  match chain_failures w with
  | O => ((Some 1, 7, None), w)
  | S n => ((None, 0, Some (ErrorString ("deploy failed, left " +:+ FormatInt (Z.of_nat n)))),
            mkEnv (oracle_down w) (send_down w) (outbox w) n)
  end.

Definition waitDeployed (tx : Z) (w : Env) : (Address * option error) * Env :=
  ((4242, None), w).

#[export] Instance ext : Externals := {|
  World := Env;
  ID_String := FormatInt;
  HexID := parseID;
  DefaultInitialDepositAmount := 0;
  DefaultPaymentThreshold := 100;
  DefaultDisconnectThreshold := 100;
  defaultCashInDelay := 86400;
  defaultHarddepositTimeoutDuration := 86400;
  deployRetries := 5;
  deployDelay := 1000;
  peer_beneficiary := λ _ peer, peer + 1000;
  peer_Send := send;
  oracle_GetPrice := getPrice;
  cheque_Sign := λ _ _, ([], None);
  crypto_PublicKey := λ key, key + 1;
  crypto_PubkeyToAddress := λ pub, pub + 500;
  swap_Deploy := deployTx;
  bind_WaitDeployed := waitDeployed
|}.

Definition env0 : Env := mkEnv false false [] 0.

(** A fresh node over an empty, reliable store; both thresholds are 100. *)
Definition fresh : Swap := New (mkStore ∅ []) 11 500 env0.

(** The state a method leaves, and its result. *)
Definition after {A} (m : M A) (s : Swap) : Swap :=
  match m s with Some (_, s') => s' | None => s end.
Definition result {A} (m : M A) (s : Swap) : option A :=
  match m s with Some (a, _) => Some a | None => None end.

(** Peer 7 owes 40, then 101: the second call settles with cheque 1. *)
Definition owing40 : Swap := after (Add (-40) 7) fresh.
Definition settled_once : Swap := after (Add (-61) 7) owing40.

(** Peer 7 owes 101 again: the call settles with cheque 2. *)
Definition settled_twice : Swap := after (Add (-101) 7) settled_once.

(** Peer 7 is owed 150, which is over the disconnect threshold. *)
Definition overdrawn : Swap := after (Add 150 7) fresh.

(** A fresh node whose oracle is down. *)
Definition no_oracle : Swap := New (mkStore ∅ []) 11 500 (mkEnv true false [] 0).

(** A fresh node whose store will serve one operation and fail the next. *)
Definition failing_write : Swap :=
  New (mkStore ∅ [None; Some "disk full"]) 11 500 env0.

(** A new session over a store that holds a balance of 57 for peer 7 and
    fails the next operation. *)
Definition failing_read : Swap :=
  New (mkStore {[ "balance_7" := VInt64 57 ]} [Some "i/o error"]) 11 500 env0.

(** A new session that owes peer 7 101, over a store that holds cheque 5
    for peer 7 and fails the next operation. *)
Definition cheque5 : Cheque := mkCheque 500 1007 5 505 101 86400 [].
Definition unreadable_cheque : Swap :=
  set_balances {[ 7 := -101 ]}
    (New (mkStore {[ "sent_cheque_7" := VCheque cheque5 ]} [Some "i/o error"]) 11 500 env0).


(** A new session over the store [settled_twice] leaves, in which peer 9
    has been accounted 5. *)
Definition two_peers : Swap := after (Add 5 9) (reload settled_twice).

(** A fresh node on a chain that fails the next two deployments. *)
Definition two_failures : Swap := New (mkStore ∅ []) 11 500 (mkEnv false false [] 2).
Definition opts0 : TransactOpts := mkTransactOpts 512 0.

(** A node that owes peer 7 101 and cannot reach it. *)
Definition unreachable : Swap :=
  set_balances {[ 7 := -101 ]} (New (mkStore ∅ []) 11 500 (mkEnv false true [] 0)).

(** The first cheque to peer 7, and [settled_once] once peer 7 is owed 101
    again, before that debt is settled. *)
Definition cheque1 : Cheque := mkCheque 500 1007 1 101 101 86400 [].
Definition owing_again : Swap := after (updateBalance 7 (-101)) settled_once.


(** A new session over a store with two balance keys that decode to peer 7. *)
Definition twin_keys : Swap :=
  New (mkStore {[ "balance_7" := VInt64 5; "balance_07" := VInt64 6 ]} []) 11 500 env0.

(** Peer 9 of [two_peers] owes 101 after this call, which settles. *)
Definition nine_settled : Swap := after (Add (-106) 9) two_peers.

(** Two more calls for the overdrawn peer 7. *)
Definition overdrawn_once : Swap := after (Add 1 7) overdrawn.
Definition overdrawn_twice : Swap := after (Add (-500) 7) overdrawn_once.

(** A cheque received from peer 7, saved on a fresh node. *)
Definition cheque_in : Cheque := mkCheque 600 512 3 30 30 86400 [].
Definition cheque_saved : Swap := after (saveLastReceivedCheque 7 cheque_in) fresh.

(** [owing_again] over a store that fails the next operation. *)
Definition full_disk : Swap :=
  set_stateStore (mkStore (data (stateStore owing_again)) [Some "disk full"]) owing_again.



(** Peer 7 owes 40 and pays 30 back. *)
Definition owing10 : Swap := after (Add 30 7) owing40.

End Demo.

(** ** Basic facts: machine integers, the store, the keys, the primitive steps *)

Lemma wrap64_range z : in_int64 (wrap64 z).
Proof.
  unfold in_int64, wrap64.
  pose proof (Z.mod_pos_bound (z + 2 ^ 63) (2 ^ 64)). lia.
Qed.

Lemma wrap64_small z : in_int64 z → wrap64 z = z.
Proof.
  unfold in_int64, wrap64. intros Hz.
  rewrite Z.mod_small; lia.
Qed.

Lemma wrap64_add_l a b : wrap64 (wrap64 a + b) = wrap64 (a + b).
Proof.
  unfold wrap64.
  replace ((a + 2 ^ 63) mod 2 ^ 64 - 2 ^ 63 + b + 2 ^ 63)
    with ((a + 2 ^ 63) mod 2 ^ 64 + b) by lia.
  rewrite Zplus_mod_idemp_l. do 2 f_equal. lia.
Qed.

Lemma wrap64_add_r a b : wrap64 (a + wrap64 b) = wrap64 (a + b).
Proof. rewrite (Z.add_comm a), wrap64_add_l. f_equal. lia. Qed.

Lemma wrapu64_small z : in_uint64 z → wrapu64 z = z.
Proof. unfold in_uint64, wrapu64. intros Hz. apply Z.mod_small. lia. Qed.

Section Basics.
Context `{Ext : Externals}.

Lemma Store_Get_data key st : data (Store_Get key st).2 = data st.
Proof.
  unfold Store_Get, Store_next.
  destruct (faults st) as [|[msg|] fs]; simpl; try destruct (data st !! key); reflexivity.
Qed.

Lemma Store_Get_reliable key st :
  faults st = [] →
  Store_Get key st
  = (match data st !! key with Some v => inr v | None => inl ErrNotFound end, st).
Proof.
  intros Hf. unfold Store_Get, Store_next. rewrite Hf.
  destruct (data st !! key); reflexivity.
Qed.

Lemma Store_Get_faults key st : faults st = [] → faults (Store_Get key st).2 = [].
Proof. intros Hf. rewrite Store_Get_reliable by done. done. Qed.

Lemma Store_Put_reliable key v st :
  faults st = [] → Store_Put key v st = (None, mkStore (<[key := v]> (data st)) []).
Proof. intros Hf. unfold Store_Put, Store_next. rewrite Hf. simpl. by rewrite Hf. Qed.

Lemma Store_Put_cases key v st :
  (∃ msg fs, faults st = Some msg :: fs ∧
             Store_Put key v st = (Some (ErrorString msg), mkStore (data st) fs)) ∨
  (∃ fs, Store_Put key v st = (None, mkStore (<[key := v]> (data st)) fs) ∧
         (faults st = [] → fs = [])).
Proof.
  unfold Store_Put, Store_next.
  destruct (faults st) as [|[msg|] fs] eqn:Hf; simpl; eauto 6.
  right. eexists. split; [reflexivity|]. done.
Qed.

Lemma balanceKey_sentChequeKey p q : balanceKey p ≠ sentChequeKey q.
Proof. unfold balanceKey, sentChequeKey. simpl. discriminate. Qed.

Lemma credited_app evs evs' : credited (evs ++ evs') = credited evs + credited evs'.
Proof. unfold credited. induction evs as [|ev evs IH]; simpl; [done|]. rewrite IH. lia. Qed.

Lemma issued_serials_app evs evs' :
  issued_serials (evs ++ evs') = issued_serials evs ++ issued_serials evs'.
Proof. apply omap_app. Qed.

Lemma held_balance_cases s peer b :
  held_balance s peer = Some b →
  balances s !! peer = Some b ∨
  (balances s !! peer = None ∧
   ∃ e, (e = None ∨ e = Some ErrNotFound) ∧
        decode_int64 (Store_Get (balanceKey peer) (stateStore s)).1 = (b, e)).
Proof.
  unfold held_balance, Balance, bind, gets, ret, store_op.
  destruct (balances s !! peer) as [b'|] eqn:Hb.
  - intros [= <-]. by left.
  - destruct (Store_Get (balanceKey peer) (stateStore s)) as [r st] eqn:Hg. simpl.
    destruct (decode_int64 r) as [z [[|msg]|]] eqn:Hd; intros [= <-]; right; split; eauto.
Qed.

Lemma held_balance_cached s peer b :
  balances s !! peer = Some b → held_balance s peer = Some b.
Proof. intros Hb. unfold held_balance, Balance, bind, gets, ret. by rewrite Hb. Qed.

Lemma loaded_balance_store s peer b e st :
  loaded_balance s peer b e st →
  data st = data (stateStore s) ∧ (faults (stateStore s) = [] → faults st = []).
Proof.
  intros [(_ & _ & ->)|(_ & -> & _)]; [done|].
  split; [apply Store_Get_data | apply Store_Get_faults].
Qed.

Lemma held_loaded s peer b' b e st :
  held_balance s peer = Some b' → loaded_balance s peer b e st →
  b = b' ∧ (e = None ∨ e = Some ErrNotFound).
Proof.
  intros Hheld Hl. apply held_balance_cases in Hheld as [Hb|[Hb (e' & He & Hd)]];
    destruct Hl as [(Hb' & -> & _)|(Hb' & _ & Hd')]; try congruence.
  - split; [congruence|by left].
  - rewrite Hd in Hd'. injection Hd' as -> ->. done.
Qed.

Lemma loaded_held s peer b e st :
  loaded_balance s peer b e st → e = None ∨ e = Some ErrNotFound →
  held_balance s peer = Some b.
Proof.
  intros [(Hb & _ & _)|(Hb & _ & Hd)] He; [by apply held_balance_cached|].
  unfold held_balance, Balance, bind, gets, ret, store_op. rewrite Hb.
  destruct (Store_Get (balanceKey peer) (stateStore s)) as [r st']. simpl in *.
  rewrite <- Hd. by destruct He as [-> | ->].
Qed.

(** [loadBalance], step by step. *)
Lemma loadBalance_eq s peer :
  ∃ e b st,
    loadBalance peer s
    = Some (e, set_balances (<[peer := b]> (balances s)) (set_stateStore st s)) ∧
    loaded_balance s peer b e st.
Proof.
  unfold loadBalance, loaded_balance, bind, gets, ret, store_op, modify.
  destruct (balances s !! peer) as [b|] eqn:Hb.
  - exists None, b, (stateStore s). rewrite insert_id by done.
    destruct s; simpl. auto.
  - destruct (Store_Get (balanceKey peer) (stateStore s)) as [r st]. simpl.
    destruct (decode_int64 r) as [b e]. simpl. eauto 10.
Qed.

(** [updateBalance], step by step. *)
Lemma updateBalance_eq peer amount s :
  updateBalance peer amount s
  = let nb := wrap64 (balance_at s peer + amount) in
    let put := Store_Put (balanceKey peer) (VInt64 nb) (stateStore s) in
    Some ((nb, put.1),
          set_trace (trace s
                     ++ match put.1 with
                        | Some _ => [balance_not_stored peer]
                        | None => []
                        end
                     ++ [accounted peer nb])
            (set_stateStore put.2 (set_balances (<[peer := nb]> (balances s)) s))).
Proof.
  unfold updateBalance, bind, gets, ret, store_op, modify, log, balance_at. simpl.
  rewrite lookup_insert_eq. simpl.
  destruct (Store_Put _ _ _) as [[e|] st]; simpl; [|reflexivity].
  rewrite <- app_assoc. reflexivity.
Qed.

End Basics.

(** ** Cheque creation and sending, case by case *)

Section Cheques.
Context `{Ext : Externals}.

Lemma loaded_last_store s peer last st :
  loaded_last s peer last st →
  data st = data (stateStore s) ∧ (faults (stateStore s) = [] → faults st = []).
Proof.
  intros [[_ ->]|(_ & -> & _)]; [done|].
  split; [apply Store_Get_data | apply Store_Get_faults].
Qed.

Lemma loadLastSentCheque_eq s peer :
  ∃ e last st,
    loadLastSentCheque peer s
    = Some (e, set_cheques (<[peer := last]> (cheques s)) (set_stateStore st s)) ∧
    loaded_last s peer last st.
Proof.
  unfold loadLastSentCheque, loaded_last, bind, gets, ret, store_op, modify.
  destruct (cheques s !! peer) as [last|] eqn:Hc.
  - exists None, last, (stateStore s). rewrite insert_id by done.
    destruct s; simpl. auto.
  - destruct (Store_Get (sentChequeKey peer) (stateStore s)) as [r st]. simpl.
    destruct (decode_cheque r) as [last e]. simpl. eauto 10.
Qed.

Lemma createCheque_cases s peer :
  let honey := wrapu64 (wrap64 (- balance_at s peer)) in
  (∃ e w,
      oracle_GetPrice honey (world s) = (inl e, w) ∧
      createCheque peer s
      = Some ((None, Some e), set_trace (trace s ++ [price_failed e]) (set_world w s))) ∨
  (∃ amount w last st c err,
      oracle_GetPrice honey (world s) = (inr amount, w) ∧
      loaded_last s peer last st ∧
      follows c last amount ∧
      Honey c = honey ∧
      err = (cheque_Sign (unsigned c) (privateKey (owner s))).2 ∧
      createCheque peer s
      = Some ((Some c, err),
              set_cheques (<[peer := last]> (cheques s)) (set_stateStore st (set_world w s)))).
Proof.
  intros honey. unfold createCheque, bind, gets, world_op. simpl. fold honey.
  destruct (oracle_GetPrice honey (world s)) as [[e|amount] w] eqn:Ho.
  - left. exists e, w. split; [done|]. reflexivity.
  - right.
    destruct (loadLastSentCheque_eq (set_world w s) peer) as (e & last & st & Hl & Hlast).
    rewrite Hl. unfold signContent, bind, gets, ret, cheque_at. simpl.
    rewrite lookup_insert_eq. simpl.
    destruct last as [l|]; simpl;
      destruct (cheque_Sign _ _) as [sig err] eqn:Hsig; simpl;
      eexists amount, w, _, st, _, err; (split; [done|]); (split; [exact Hlast|]);
      (split; [|split; [|split; [|reflexivity]]]); simpl; try done;
      unfold unsigned; simpl; by rewrite Hsig.
Qed.

(** [sendCheque] never panics, and does one of four things: the price
    conversion fails; the cheque is created but not signed; the cheque is
    cached but the store refuses it; the cheque is cached and stored, the
    balance is credited, and the cheque is handed to the transport. *)
Lemma sendCheque_cases s peer :
  let honey := wrapu64 (wrap64 (- balance_at s peer)) in
  ∃ r s' evs,
    sendCheque peer s = Some (r, s') ∧
    trace s' = trace s ++ evs ∧
    paymentThreshold s' = paymentThreshold s ∧
    disconnectThreshold s' = disconnectThreshold s ∧
    owner s' = owner s ∧
    (faults (stateStore s) = [] → faults (stateStore s') = []) ∧
    ((∃ e w,
         oracle_GetPrice honey (world s) = (inl e, w) ∧
         r = Some e ∧ evs = [price_failed e; creation_failed e] ∧
         balances s' = balances s ∧ data (stateStore s') = data (stateStore s) ∧
         cheques s' = cheques s) ∨
     (∃ amount w last st c,
         oracle_GetPrice honey (world s) = (inr amount, w) ∧
         loaded_last s peer last st ∧ follows c last amount ∧ Honey c = honey ∧
         ((∃ e,
              r = Some e ∧ evs = [creation_failed e] ∧
              balances s' = balances s ∧ data (stateStore s') = data (stateStore s) ∧
              cheques s' = <[peer := last]> (cheques s)) ∨
          (∃ msg,
              r = Some (ErrorString msg) ∧
              evs = [sending c; storing_failed (ErrorString msg)] ∧
              balances s' = balances s ∧ data (stateStore s') = data (stateStore s) ∧
              cheques s' = <[peer := Some c]> (cheques s) ∧
              faults (stateStore s) ≠ []) ∨
          (∃ w',
              peer_Send peer (mkEmitChequeMsg c) w = (r, w') ∧ world s' = w' ∧
              (let nb := wrap64 (balance_at s peer + wrap64 (Amount c)) in
              balances s' = <[peer := nb]> (balances s) ∧
              cheques s' = <[peer := Some c]> (cheques s) ∧
              ((evs = [sending c; resetting peer (wrap64 (Amount c)); accounted peer nb] ∧
                data (stateStore s')
                = <[balanceKey peer := VInt64 nb]>
                    (<[sentChequeKey peer := VCheque c]> (data (stateStore s)))) ∨
               (evs = [sending c; resetting peer (wrap64 (Amount c));
                       balance_not_stored peer; accounted peer nb] ∧
                data (stateStore s')
                = <[sentChequeKey peer := VCheque c]> (data (stateStore s)) ∧
                faults (stateStore s) ≠ []))))))).
Proof.
  intros honey. unfold sendCheque, bind.
  destruct (createCheque_cases s peer) as
    [(e & w & Ho & ->)|(amount & w & last & st & c & err & Ho & Hlast & Hc & Hh & _ & ->)];
    fold honey in Ho.
  { unfold log, modify, ret. simpl.
    eexists _, _, _. split; [reflexivity|]. simpl.
    rewrite <- app_assoc. repeat (split; [done|]). left. eauto 10. }
  destruct (loaded_last_store _ _ _ _ Hlast) as [Hdata Hfaults].
  destruct err as [e|].
  { unfold log, modify, ret. simpl.
    eexists _, _, _. split; [reflexivity|]. simpl. repeat (split; [done|]).
    right. exists amount, w, last, st, c. repeat (split; [done|]). left. eauto 10. }
  unfold log, modify, store_op, ret. simpl. rewrite insert_insert_eq.
  destruct (Store_Put_cases (sentChequeKey peer) (VCheque c) st)
    as [(msg & fs & Hf & ->)|(fs & -> & Hfs)]; simpl.
  { eexists _, _, _. split; [reflexivity|]. simpl. rewrite <- app_assoc.
    split; [reflexivity|]. repeat (split; [try done|]).
    { intros Hrel. apply Hfaults in Hrel. congruence. }
    right. exists amount, w, last, st, c. repeat (split; [done|]). right. left.
    exists msg. repeat (split; [done|]). intros Hrel. apply Hfaults in Hrel. congruence. }
  unfold resetBalance, bind, log, modify, world_op, ret. rewrite updateBalance_eq. simpl.
  destruct (peer_Send peer (mkEmitChequeMsg c) w) as [r w'] eqn:Hsend.
  eexists _, _, _. split; [reflexivity|]. simpl. rewrite <- !app_assoc. simpl.
  split; [reflexivity|]. repeat (split; [try done|]).
  { intros Hrel. specialize (Hfs (Hfaults Hrel)). subst fs.
    by rewrite Store_Put_reliable. }
  right. exists amount, w, last, st, c. repeat (split; [done|]). right. right.
  exists w'. split; [done|]. split; [done|]. unfold balance_at at 1 2. simpl.
  split; [done|]. split; [done|].
  destruct (Store_Put_cases (balanceKey peer)
              (VInt64 (wrap64 (balance_at s peer + wrap64 (Amount c))))
              (mkStore (<[sentChequeKey peer := VCheque c]> (data st)) fs))
    as [(msg & fs' & Hf & Hput)|(fs' & Hput & _)];
    unfold balance_at in *; simpl in *; rewrite Hput; simpl; rewrite Hdata; [|by auto].
  right. repeat (split; [done|]). intros Hrel.
  specialize (Hfs (Hfaults Hrel)). congruence.
Qed.

(** [sendCheque] on a reliable store, with a working oracle and signer: the
    cheque for the whole debt is created, cached, stored, credited and handed
    to the transport. *)
Lemma sendCheque_settles s peer amount w :
  faults (stateStore s) = [] →
  oracle_GetPrice (wrapu64 (wrap64 (- balance_at s peer))) (world s) = (inr amount, w) →
  (∀ c, (cheque_Sign c (privateKey (owner s))).2 = None) →
  ∃ c last st s',
    loaded_last s peer last st ∧ follows c last amount ∧
    Honey c = wrapu64 (wrap64 (- balance_at s peer)) ∧
    sendCheque peer s = Some ((peer_Send peer (mkEmitChequeMsg c) w).1, s') ∧
    world s' = (peer_Send peer (mkEmitChequeMsg c) w).2 ∧
    balances s' = <[peer := wrap64 (balance_at s peer + wrap64 (Amount c))]> (balances s) ∧
    cheques s' = <[peer := Some c]> (cheques s) ∧
    stateStore s'
    = mkStore (<[balanceKey peer := VInt64 (wrap64 (balance_at s peer + wrap64 (Amount c)))]>
                 (<[sentChequeKey peer := VCheque c]> (data (stateStore s)))) [] ∧
    trace s' = trace s ++ [sending c; resetting peer (wrap64 (Amount c));
                           accounted peer (wrap64 (balance_at s peer + wrap64 (Amount c)))].
Proof.
  intros Hrel Ho Hsign.
  destruct (createCheque_cases s peer) as
    [(e & w' & Ho' & _)|(amount' & w' & last & st & c & err & Ho' & Hlast & Hf & Hh & -> & Hc)];
    rewrite Ho in Ho'; [done|]. injection Ho' as <- <-.
  destruct (loaded_last_store _ _ _ _ Hlast) as [Hdata Hfaults].
  specialize (Hfaults Hrel).
  exists c, last, st. unfold sendCheque, bind. rewrite Hc, Hsign.
  unfold log, modify, store_op, ret. simpl.
  rewrite Store_Put_reliable by done. cbv beta iota zeta.
  unfold resetBalance, bind, log, modify, world_op, ret. rewrite updateBalance_eq.
  cbv beta iota zeta. rewrite Store_Put_reliable by done. simpl.
  destruct (peer_Send peer (mkEmitChequeMsg c) w) as [r w''] eqn:Hsend. simpl.
  eexists. split; [done|]. split; [done|]. split; [done|]. split; [reflexivity|]. simpl.
  split; [done|].
  change (balance_at (set_trace _ _) peer) with (balance_at s peer).
  rewrite insert_insert_eq, Hdata, <- !app_assoc. done.
Qed.

End Cheques.


(** ** [Add], case by case *)

Section AddCases.
Context `{Ext : Externals}.

(** [Add] never panics.  It stops on a store error when loading; else it
    rejects the call when the loaded balance is at the disconnect threshold;
    else it applies the delta, stops if the store refuses the new balance, and
    sends a cheque when the new balance is at the payment threshold. *)
Lemma Add_cases s amount peer :
  ∃ e0 b st0 r s' evs,
    loaded_balance s peer b e0 st0 ∧
    Add amount peer s = Some (r, s') ∧
    trace s' = trace s ++ evs ∧
    paymentThreshold s' = paymentThreshold s ∧
    disconnectThreshold s' = disconnectThreshold s ∧
    owner s' = owner s ∧
    (faults (stateStore s) = [] → faults (stateStore s') = []) ∧
    let nb := wrap64 (b + amount) in
    let pay := paymentThreshold s in
    let thr := disconnectThreshold s in
    ((e0 ≠ None ∧ e0 ≠ Some ErrNotFound ∧ r = e0 ∧ evs = [load_failed peer] ∧
      balances s' = <[peer := b]> (balances s) ∧
      data (stateStore s') = data (stateStore s) ∧ cheques s' = cheques s) ∨
     ((e0 = None ∨ e0 = Some ErrNotFound) ∧
      ((thr <= b ∧ r = Some (ErrorString (disconnectMessage peer thr)) ∧
        evs = [disconnecting peer thr] ∧
        balances s' = <[peer := b]> (balances s) ∧
        data (stateStore s') = data (stateStore s) ∧ cheques s' = cheques s) ∨
       (b < thr ∧
        ((∃ msg,
             (Store_Put (balanceKey peer) (VInt64 nb) st0).1 = Some (ErrorString msg) ∧
             r = Some (ErrorString msg) ∧
             evs = [balance_not_stored peer; accounted peer nb] ∧
             balances s' = <[peer := nb]> (balances s) ∧
             data (stateStore s') = data (stateStore s) ∧ cheques s' = cheques s ∧
             faults (stateStore s) ≠ []) ∨
         (wrap64 (- pay) < nb ∧
          (Store_Put (balanceKey peer) (VInt64 nb) st0).1 = None ∧
          r = None ∧ evs = [accounted peer nb] ∧
          balances s' = <[peer := nb]> (balances s) ∧
          data (stateStore s') = <[balanceKey peer := VInt64 nb]> (data (stateStore s)) ∧
          cheques s' = cheques s) ∨
         (nb <= wrap64 (- pay) ∧
          (Store_Put (balanceKey peer) (VInt64 nb) st0).1 = None ∧
          ∃ s1 s2 evs2,
            balances s1 = <[peer := nb]> (balances s) ∧
            data (stateStore s1) = <[balanceKey peer := VInt64 nb]> (data (stateStore s)) ∧
            cheques s1 = cheques s ∧ world s1 = world s ∧
            (faults (stateStore s) = [] → faults (stateStore s1) = []) ∧
            sendCheque peer s1 = Some (r, s2) ∧
            trace s2 = trace s1 ++ evs2 ∧
            evs = accounted peer nb :: settling peer pay :: evs2
                  ++ [match r with
                      | Some e => cheque_failed peer e
                      | None => cheque_sent peer
                      end] ∧
            balances s' = balances s2 ∧ stateStore s' = stateStore s2 ∧
            cheques s' = cheques s2 ∧ world s' = world s2)))))).
Proof.
  destruct (loadBalance_eq s peer) as (e0 & b & st0 & Hload & Hl).
  destruct (loaded_balance_store _ _ _ _ _ Hl) as [Hdata Hfaults].
  exists e0, b, st0. unfold Add, bind. rewrite Hload.
  destruct (decide (e0 ≠ None ∧ e0 ≠ Some ErrNotFound)) as [[He1 He2]|He].
  { unfold log, modify, ret. simpl.
    eexists _, _, _. split; [done|]. split; [reflexivity|]. simpl.
    repeat (split; [done|]). left. done. }
  assert (e0 = None ∨ e0 = Some ErrNotFound) as He'.
  { destruct e0 as [[|msg]|]; auto. exfalso. apply He. done. }
  unfold gets at 1 2. unfold balance_at at 1. simpl. rewrite lookup_insert_eq. simpl.
  destruct (Z.leb_spec (disconnectThreshold s) b) as [Hthr|Hthr].
  { unfold log, modify, ret. simpl.
    eexists _, _, _. split; [done|]. split; [reflexivity|]. simpl.
    repeat (split; [done|]). right. split; [done|]. left. done. }
  rewrite updateBalance_eq. unfold balance_at. simpl.
  rewrite lookup_insert_eq, insert_insert_eq. simpl.
  destruct (Store_Put_cases (balanceKey peer) (VInt64 (wrap64 (b + amount))) st0)
    as [(msg & fs & Hf & Hput)|(fs & Hput & Hfs)]; rewrite Hput; simpl.
  { unfold ret. eexists _, _, _. split; [done|]. split; [reflexivity|]. simpl.
    split; [reflexivity|]. repeat (split; [try done|]).
    { intros Hrel. apply Hfaults in Hrel. congruence. }
    right. split; [done|]. right. split; [done|]. left. exists msg.
    repeat (split; [done|]). intros Hrel. apply Hfaults in Hrel. congruence. }
  unfold gets. simpl.
  destruct (Z.leb_spec (wrap64 (b + amount)) (wrap64 (- paymentThreshold s))) as [Hpay|Hpay].
  2:{ unfold ret. eexists _, _, _. split; [done|]. split; [reflexivity|]. simpl.
      split; [reflexivity|]. repeat (split; [try done|]).
      { intros Hrel. auto. }
      right. split; [done|]. right. split; [done|]. right. left.
      rewrite Hdata. done. }
  match goal with |- context [sendCheque peer ?s1] => set (s1' := s1) end.
  destruct (sendCheque_cases s1' peer)
    as (r & s2 & evs2 & Hsend & Htr & Hp & Hd & Ho & Hrel2 & _).
  rewrite Hsend.
  exists r, (set_trace (trace s2 ++ [match r with
                                     | Some e => cheque_failed peer e
                                     | None => cheque_sent peer
                                     end]) s2).
  eexists. split; [done|]. split.
  { destruct r; reflexivity. }
  simpl. rewrite Htr. simpl. rewrite <- !app_assoc. simpl.
  split; [reflexivity|]. repeat (split; [try done|]).
  { intros Hrel. apply Hrel2. simpl. auto. }
  right. split; [done|]. right. split; [done|]. right. right. split; [done|].
  split; [done|]. exists s1', s2, evs2. simpl. rewrite Hdata. repeat (split; [try done|]).
  - intros Hrel. auto.
  - done.
Qed.

End AddCases.

(** ** The disconnect threshold and the payment threshold *)

Section Thresholds.
Context `{Ext : Externals}.

(** A call that finds the balance at the disconnect threshold is rejected and
    changes nothing but the cache entry it may have loaded. *)
Lemma Add_rejects s amount peer b :
  held_balance s peer = Some b →
  disconnectThreshold s <= b →
  ∃ s',
    Add amount peer s
    = Some (Some (ErrorString (disconnectMessage peer (disconnectThreshold s))), s') ∧
    trace s' = trace s ++ [disconnecting peer (disconnectThreshold s)] ∧
    balances s' = <[peer := b]> (balances s) ∧
    data (stateStore s') = data (stateStore s) ∧
    disconnectThreshold s' = disconnectThreshold s ∧
    held_balance s' peer = Some b.
Proof.
  intros Hheld Hthr.
  destruct (Add_cases s amount peer)
    as (e0 & b' & st0 & r & s' & evs & Hl & HAdd & Htr & _ & Hd & _ & _ & Hcases).
  destruct (held_loaded _ _ _ _ _ _ Hheld Hl) as [-> He].
  destruct Hcases as [(He1 & He2 & _)|[_ [(_ & -> & -> & Hb & Hdata & _)|[Hlt _]]]].
  - destruct He as [-> | ->]; done.
  - exists s'. repeat (split; [done|]). apply held_balance_cached.
    rewrite Hb. apply lookup_insert_eq.
  - lia.
Qed.

(** C2: when the balance a peer has, cached or stored, is at or above the
    disconnect threshold, the next [Add], whatever the amount, returns the
    error whose message names the peer and the threshold, and the balance is
    the same afterwards, in memory and in the store. *)
Theorem Add_at_disconnect_threshold s amount peer b :
  held_balance s peer = Some b →
  disconnectThreshold s <= b →
  ∃ s',
    Add amount peer s
    = Some (Some (ErrorString (disconnectMessage peer (disconnectThreshold s))), s') ∧
    balances s' = <[peer := b]> (balances s) ∧
    held_balance s' peer = Some b ∧
    data (stateStore s') = data (stateStore s).
Proof.
  intros Hheld Hthr.
  destruct (Add_rejects s amount peer b Hheld Hthr) as (s' & HAdd & _ & Hb & Hdata & _ & Hh).
  exists s'. done.
Qed.

(** The balance [Add] finds, over a reliable store. *)
Lemma loadBalance_reliable s peer b :
  faults (stateStore s) = [] →
  held_balance s peer = Some b →
  ∃ e, loadBalance peer s = Some (e, set_balances (<[peer := b]> (balances s)) s) ∧
       (e = None ∨ e = Some ErrNotFound).
Proof.
  intros Hrel Hheld.
  destruct (loadBalance_eq s peer) as (e & b' & st & Hload & Hl).
  destruct (held_loaded _ _ _ _ _ _ Hheld Hl) as [-> He].
  exists e. split; [|done]. rewrite Hload. do 3 f_equal.
  destruct Hl as [(_ & _ & ->)|(_ & -> & _)]; [by destruct s|].
  rewrite Store_Get_reliable by done. by destruct s.
Qed.

(** An accepted call over a reliable store, step by step: the new balance is
    cached and stored, and [sendCheque] runs, on that state, exactly when the
    new balance is at the payment threshold. *)
Lemma Add_accepted_eq s amount peer b :
  faults (stateStore s) = [] →
  held_balance s peer = Some b →
  b < disconnectThreshold s →
  let nb := wrap64 (b + amount) in
  let s0 := set_trace (trace s ++ [accounted peer nb])
              (set_stateStore (mkStore (<[balanceKey peer := VInt64 nb]> (data (stateStore s))) [])
                 (set_balances (<[peer := nb]> (balances s)) s)) in
  let s1 := set_trace (trace s0 ++ [settling peer (paymentThreshold s)]) s0 in
  Add amount peer s
  = if nb <=? wrap64 (- paymentThreshold s) then
      match sendCheque peer s1 with
      | Some (r, s2) =>
          Some (r, set_trace (trace s2 ++ [match r with
                                           | Some e => cheque_failed peer e
                                           | None => cheque_sent peer
                                           end]) s2)
      | None => None
      end
    else Some (None, s0).
Proof.
  intros Hrel Hheld Hthr nb s0 s1.
  destruct (loadBalance_reliable s peer b Hrel Hheld) as (e & Hload & He).
  unfold Add, bind. rewrite Hload.
  destruct (decide (e ≠ None ∧ e ≠ Some ErrNotFound)) as [[He1 He2]|_].
  { destruct He as [-> | ->]; done. }
  unfold gets at 1 2. unfold balance_at at 1. simpl. rewrite lookup_insert_eq. simpl.
  destruct (Z.leb_spec (disconnectThreshold s) b) as [?|_]; [lia|].
  rewrite updateBalance_eq. unfold balance_at. simpl.
  rewrite lookup_insert_eq, insert_insert_eq. simpl.
  rewrite Store_Put_reliable by done. simpl. unfold gets. simpl.
  fold nb. destruct (nb <=? wrap64 (- paymentThreshold s)); [|reflexivity].
  unfold log, modify. simpl.
  change (sendCheque peer _) with (sendCheque peer s1).
  destruct (sendCheque peer s1) as [[[e'|] s2]|]; reflexivity.
Qed.

(** C3: the disconnect threshold is compared with the balance before the
    delta, the payment threshold, which decides whether a cheque is issued,
    with the balance after it.  A call that finds the balance at the disconnect
    threshold is rejected without accounting anything, wherever the delta
    would lead.  A call that finds it below accounts the new balance [nb],
    wherever that is.  When [nb] is above minus the payment threshold no
    cheque is issued: nothing is announced, the cheques and the environment
    are as before, and when [nb] has reached the disconnect threshold the call
    still returns no error and it is the next call that is rejected.  When
    [nb] is at or below minus the payment threshold [sendCheque] runs on
    [nb]: if the oracle fails the call returns its error and no cheque is
    issued; if the oracle converts and the signer signs, one cheque whose
    honey is [-nb] is announced, cached, stored and handed to the transport,
    whose result the call returns, and the balance is credited. *)
Theorem Add_checks_before_and_after s amount peer b :
  faults (stateStore s) = [] →
  held_balance s peer = Some b →
  let nb := wrap64 (b + amount) in
  let thr := disconnectThreshold s in
  let pay := paymentThreshold s in
  let honey := wrapu64 (wrap64 (- nb)) in
  ∃ r s' evs,
    Add amount peer s = Some (r, s') ∧
    trace s' = trace s ++ evs ∧
    (thr <= b →
       r = Some (ErrorString (disconnectMessage peer thr)) ∧
       evs = [disconnecting peer thr] ∧
       held_balance s' peer = Some b ∧
       cheques s' = cheques s) ∧
    (b < thr →
       ∃ evs',
         evs = accounted peer nb :: evs' ∧
         (wrap64 (- pay) < nb →
            evs' = [] ∧ r = None ∧ held_balance s' peer = Some nb ∧
            cheques s' = cheques s ∧ world s' = world s ∧
            (thr <= nb →
               ∀ amount', ∃ s'',
                 Add amount' peer s'
                 = Some (Some (ErrorString (disconnectMessage peer thr)), s'') ∧
                 held_balance s'' peer = Some nb)) ∧
         (nb <= wrap64 (- pay) →
            (∃ evs'', evs' = settling peer pay :: evs'') ∧
            (∀ e w,
                oracle_GetPrice honey (world s) = (inl e, w) →
                r = Some e ∧ issued_serials evs = [] ∧
                cheques s' = cheques s ∧ held_balance s' peer = Some nb) ∧
            (∀ converted w,
                oracle_GetPrice honey (world s) = (inr converted, w) →
                (∀ c, (cheque_Sign c (privateKey (owner s))).2 = None) →
                ∃ c,
                  Honey c = honey ∧
                  issued_serials evs = [Serial c] ∧
                  cheque_at s' peer = Some c ∧
                  data (stateStore s') !! sentChequeKey peer = Some (VCheque c) ∧
                  r = (peer_Send peer (mkEmitChequeMsg c) w).1 ∧
                  world s' = (peer_Send peer (mkEmitChequeMsg c) w).2 ∧
                  held_balance s' peer = Some (wrap64 (nb + wrap64 (Amount c)))))).
Proof.
  intros Hrel Hheld nb thr pay honey.
  destruct (Z.le_gt_cases thr b) as [Hge|Hlt].
  { destruct (Add_cases s amount peer)
      as (e0 & b' & st0 & r & s' & evs & Hl & HAdd & Htr & _ & Hd & _ & _ & Hcases).
    destruct (held_loaded _ _ _ _ _ _ Hheld Hl) as [-> He].
    exists r, s', evs. split; [done|]. split; [done|].
    split; [|intros; lia]. intros _.
    destruct Hcases as [(He1 & He2 & _)|[_ Hcases]].
    { destruct He as [-> | ->]; done. }
    destruct Hcases as [(_ & -> & -> & Hb & _ & Hch)|[Hlt _]]; [|fold thr in Hlt; lia].
    repeat (split; [done|]). split; [|done].
    apply held_balance_cached. rewrite Hb. apply lookup_insert_eq. }
  pose proof (Add_accepted_eq s amount peer b Hrel Hheld Hlt) as HAdd.
  cbv zeta in HAdd. fold nb pay in HAdd.
  set (s0 := set_trace (trace s ++ [accounted peer nb])
               (set_stateStore
                  (mkStore (<[balanceKey peer := VInt64 nb]> (data (stateStore s))) [])
                  (set_balances (<[peer := nb]> (balances s)) s))) in *.
  set (s1 := set_trace (trace s0 ++ [settling peer pay]) s0) in *.
  destruct (Z.leb_spec nb (wrap64 (- pay))) as [Hpay|Hpay].
  2:{ exists None, s0, [accounted peer nb]. split; [done|]. split; [done|].
      split; [intros; lia|]. intros _. exists []. split; [done|].
      split; [|intros; lia]. intros _.
      assert (held_balance s0 peer = Some nb) as Hheld0.
      { apply held_balance_cached. simpl. apply lookup_insert_eq. }
      repeat (split; [done|]). intros Hnb amount'.
      destruct (Add_rejects s0 amount' peer nb Hheld0 Hnb)
        as (s'' & HAdd' & _ & _ & _ & _ & Hh).
      exists s''. done. }
  assert (balance_at s1 peer = nb) as Hat.
  { unfold balance_at. simpl. by rewrite lookup_insert_eq. }
  destruct (sendCheque_cases s1 peer)
    as (r & s2 & evs2 & Hsend & Htr2 & _ & _ & _ & _ & Hc).
  rewrite Hat in Hc. cbv zeta in Hc. fold honey in Hc.
  change (world s1) with (world s) in Hc.
  rewrite Hsend in HAdd.
  eexists r, _, (accounted peer nb :: settling peer pay :: evs2 ++ [_]).
  split; [exact HAdd|]. split.
  { simpl. rewrite Htr2. simpl. rewrite <- !app_assoc. done. }
  split; [intros; lia|]. intros _. eexists. split; [reflexivity|].
  split; [intros; lia|]. intros _. split; [eauto|].
  assert (∀ ev : option error,
            issued_serials (accounted peer nb :: settling peer pay :: evs2
                            ++ [match ev with
                                | Some e => cheque_failed peer e
                                | None => cheque_sent peer
                                end])
            = issued_serials evs2) as Hiss.
  { intros ev. change (?a :: ?b :: ?l ++ ?f) with ([a; b] ++ l ++ f).
    rewrite !issued_serials_app. simpl. destruct ev; simpl; apply app_nil_r. }
  rewrite Hiss. split.
  - intros e w Ho.
    destruct Hc as [(e' & w' & Ho' & -> & -> & Hb & _ & Hch)|(amt & w' & ? & ? & ? & Ho' & _)];
      rewrite Ho in Ho'; [|done]. injection Ho' as <- <-.
    split; [done|]. split; [done|]. split; [done|].
    apply held_balance_cached. simpl. rewrite Hb. simpl. apply lookup_insert_eq.
  - intros converted w Ho Hsign.
    destruct (sendCheque_settles s1 peer converted w)
      as (c & last & st & s2' & _ & _ & Hh & Hsend' & Hw & Hb & Hch & Hst & Htr').
    { done. }
    { by rewrite Hat. }
    { done. }
    rewrite Hsend in Hsend'. injection Hsend' as -> <-.
    rewrite Htr2 in Htr'. apply app_inv_head in Htr' as ->.
    rewrite Hat in *. exists c. split; [done|]. split; [done|].
    unfold cheque_at. simpl. rewrite Hch, Hst, lookup_insert_eq. simpl.
    split; [done|]. split.
    { rewrite lookup_insert_ne by apply balanceKey_sentChequeKey. apply lookup_insert_eq. }
    split; [done|]. split; [done|].
    apply held_balance_cached. simpl. rewrite Hb. apply lookup_insert_eq.
Qed.

End Thresholds.

(** ** Balances over a sequence of calls *)

Section Sequences.
Context `{Ext : Externals}.

Lemma held_balance_uncached s peer :
  balances s !! peer = None →
  held_balance s peer
  = match decode_int64 (Store_Get (balanceKey peer) (stateStore s)).1 with
    | (b, None) | (b, Some ErrNotFound) => Some b
    | _ => None
    end.
Proof.
  intros Hnone. unfold held_balance, Balance, bind, gets, ret, store_op.
  rewrite Hnone. destruct (Store_Get (balanceKey peer) (stateStore s)) as [r st].
  reflexivity.
Qed.

Lemma held_balance_reload s peer :
  held_balance (reload s) peer
  = match decode_int64 (Store_Get (balanceKey peer) (stateStore s)).1 with
    | (b, None) | (b, Some ErrNotFound) => Some b
    | _ => None
    end.
Proof. apply (held_balance_uncached (reload s)), lookup_empty. Qed.

Lemma held_balance_reload_stored s peer v :
  faults (stateStore s) = [] →
  data (stateStore s) !! balanceKey peer = Some (VInt64 v) →
  held_balance (reload s) peer = Some v.
Proof.
  intros Hrel Hdata. rewrite held_balance_reload, Store_Get_reliable by done.
  rewrite Hdata. reflexivity.
Qed.

(** One accepted call over a reliable store: the balance moves by the amount
    and by what the trace reports as credited, and the store holds it. *)
Lemma Add_accepted_reliable s amount peer b :
  faults (stateStore s) = [] →
  held_balance s peer = Some b →
  b < disconnectThreshold s →
  ∃ r s' evs,
    Add amount peer s = Some (r, s') ∧
    trace s' = trace s ++ evs ∧
    faults (stateStore s') = [] ∧
    balances s' !! peer = Some (wrap64 (b + amount + credited evs)) ∧
    data (stateStore s') !! balanceKey peer
    = Some (VInt64 (wrap64 (b + amount + credited evs))).
Proof.
  intros Hrel Hheld Hthr.
  destruct (Add_cases s amount peer)
    as (e0 & b' & st0 & r & s' & evs & Hl & HAdd & Htr & _ & _ & _ & Hrel' & Hcases).
  destruct (held_loaded _ _ _ _ _ _ Hheld Hl) as [-> He].
  exists r, s', evs. repeat (split; [by auto|]).
  destruct Hcases as [(He1 & He2 & _)|[_ Hcases]].
  { destruct He as [-> | ->]; done. }
  destruct Hcases as [(Hge & _)|[_ Hcases]]; [lia|].
  destruct Hcases as [(msg & _ & _ & _ & _ & _ & _ & Hf)
                     |[(_ & _ & _ & -> & Hb & Hdata & _)|(_ & _ & Hsend)]].
  - done.
  - rewrite Hb, Hdata, !lookup_insert_eq. unfold credited. simpl.
    rewrite !Z.add_0_r. done.
  - destruct Hsend as (s1 & s2 & evs2 & Hb1 & Hdata1 & _ & _ & Hrel1 & Hsend & Htr2a
                       & -> & -> & -> & _).
    assert (balance_at s1 peer = wrap64 (b + amount)) as Hat.
    { unfold balance_at. rewrite Hb1, lookup_insert_eq. done. }
    destruct (sendCheque_cases s1 peer)
      as (r' & s2' & evs2' & Hsend' & Htr2 & _ & _ & _ & _ & Hc).
    rewrite Hsend in Hsend'. injection Hsend' as <- <-.
    rewrite Htr2a in Htr2. apply app_inv_head in Htr2 as ->.
    assert (∀ ev, credited (accounted peer (wrap64 (b + amount)) :: settling peer (paymentThreshold s)
                            :: evs2' ++ [ev])
                  = credited evs2' + reset_amount ev) as Hcred.
    { intros ev. change (?a :: ?b :: ?l ++ [ev]) with ([a; b] ++ l ++ [ev]).
      rewrite !credited_app. unfold credited. simpl. lia. }
    assert (∀ (r0 : option error),
              reset_amount match r0 with
                           | Some e => cheque_failed peer e
                           | None => cheque_sent peer
                           end = 0) as Hfinal.
    { intros [e|]; reflexivity. }
    rewrite Hcred, Hfinal, Z.add_0_r.
    destruct Hc as [(e & w & _ & _ & -> & Hb2 & Hdata2 & _)
                   |(amt & w & last & st & c & _ & _ & _ & _ & Hc)].
    { rewrite Hb2, Hdata2, Hb1, Hdata1, !lookup_insert_eq. unfold credited. simpl.
      rewrite !Z.add_0_r. done. }
    destruct Hc as [(e & _ & -> & Hb2 & Hdata2 & _)
                   |[(msg & _ & _ & _ & _ & _ & Hf)|(w' & _ & _ & Hb2 & _ & Hc)]].
    + rewrite Hb2, Hdata2, Hb1, Hdata1, !lookup_insert_eq. unfold credited. simpl.
      rewrite !Z.add_0_r. done.
    + exfalso. apply Hf. auto.
    + destruct Hc as [(-> & Hdata2)|(_ & _ & Hf)]; [|exfalso; apply Hf; auto].
      rewrite Hb2, Hdata2, Hat, !lookup_insert_eq. unfold credited. simpl.
      rewrite Z.add_0_r, wrap64_add_l. done.
Qed.

(** The balance along a run of accepted calls over a reliable store. *)
Lemma AddRun_balance peer s amounts s' :
  AddRun peer s amounts s' →
  ∀ b0,
    faults (stateStore s) = [] →
    held_balance s peer = Some b0 →
    ∃ evs,
      trace s' = trace s ++ evs ∧
      faults (stateStore s') = [] ∧
      (amounts = [] → s' = s ∧ evs = []) ∧
      (amounts ≠ [] →
         balances s' !! peer = Some (wrap64 (b0 + sumZ amounts + credited evs)) ∧
         data (stateStore s') !! balanceKey peer
         = Some (VInt64 (wrap64 (b0 + sumZ amounts + credited evs)))).
Proof.
  induction 1 as [s|s amount amounts b r s1 s2 Hheld Hthr HAdd Hrun IH];
    intros b0 Hrel Hb0.
  { exists []. rewrite app_nil_r. done. }
  rewrite Hheld in Hb0. injection Hb0 as ->.
  destruct (Add_accepted_reliable s amount peer b0 Hrel Hheld Hthr)
    as (r' & s1' & evs1 & HAdd' & Htr1 & Hrel1 & Hb1 & Hdata1).
  rewrite HAdd in HAdd'. injection HAdd' as <- <-.
  destruct (IH _ Hrel1 (held_balance_cached _ _ _ Hb1)) as (evs2 & Htr2 & Hrel2 & Hnil & Hcons).
  exists (evs1 ++ evs2). rewrite Htr2, Htr1, <- app_assoc.
  repeat (split; [done|]). intros _.
  destruct amounts as [|amount' amounts].
  - destruct (Hnil eq_refl) as [-> ->]. rewrite app_nil_r. simpl.
    rewrite Z.add_0_r. done.
  - destruct Hcons as [Hb2 Hdata2]; [done|].
    rewrite Hb2, Hdata2, credited_app. unfold sumZ. simpl.
    rewrite <- (Z.add_assoc (wrap64 _)), wrap64_add_l.
    split; [do 2 f_equal|do 3 f_equal]; lia.
Qed.

(** A run in which no call reaches the payment threshold credits nothing and
    announces no cheque. *)
Lemma AddRun_unsettled peer s amounts s' :
  AddRun peer s amounts s' →
  ∀ b0,
    held_balance s peer = Some b0 →
    above_payment (paymentThreshold s) b0 amounts →
    ∃ evs, trace s' = trace s ++ evs ∧ credited evs = 0 ∧ issued_serials evs = [].
Proof.
  induction 1 as [s|s amount amounts b r s1 s2 Hheld Hthr HAdd Hrun IH];
    intros b0 Hb0 Habove.
  { exists []. by rewrite app_nil_r. }
  rewrite Hheld in Hb0. injection Hb0 as ->. destruct Habove as [Hpay Habove].
  destruct (Add_cases s amount peer)
    as (e0 & b' & st0 & r' & s1' & evs1 & Hl & HAdd' & Htr1 & Hp & _ & _ & _ & Hcases).
  rewrite HAdd in HAdd'. injection HAdd' as <- <-.
  destruct (held_loaded _ _ _ _ _ _ Hheld Hl) as [-> He].
  cbv zeta in Hcases.
  assert (credited evs1 = 0 ∧ issued_serials evs1 = [] ∧
          balances s1 !! peer = Some (wrap64 (b0 + amount))) as (Hc1 & Hi1 & Hb1).
  { destruct Hcases as [(He1 & He2 & _)|[_ Hcases]].
    { destruct He as [-> | ->]; done. }
    destruct Hcases as [(Hge & _)|[_ Hcases]]; [lia|].
    destruct Hcases as [(msg & _ & _ & -> & Hb & _)
                       |[(_ & _ & _ & -> & Hb & _)|(Hle & _)]]; [| |lia];
      rewrite Hb, lookup_insert_eq; done. }
  destruct (IH (wrap64 (b0 + amount))) as (evs2 & Htr2 & Hc2 & Hi2).
  { by apply held_balance_cached. }
  { by rewrite Hp. }
  exists (evs1 ++ evs2). rewrite Htr2, Htr1, <- app_assoc, credited_app, issued_serials_app.
  rewrite Hc1, Hc2, Hi1, Hi2. done.
Qed.

(** C1: over a reliable store, for a peer whose balance is below the
    disconnect threshold whenever a call starts, the balance after any
    sequence of [Add] calls is the balance held at the start (the stored one,
    zero for a peer never seen) plus the amounts added plus the credits
    [resetBalance] applied when cheques were sent, in [int64] arithmetic (so
    exactly that sum when it is in range); a fresh [Balance] read by a new
    session over the same store gives the same value.  When no call brings
    the balance to the payment threshold, no cheque is sent, nothing is
    credited, and the balance is the initial one plus the amounts added. *)
Theorem balance_is_running_sum peer s amounts s' b0 :
  faults (stateStore s) = [] →
  held_balance s peer = Some b0 →
  in_int64 b0 →
  AddRun peer s amounts s' →
  ∃ evs,
    trace s' = trace s ++ evs ∧
    let total := b0 + sumZ amounts + credited evs in
    held_balance s' peer = Some (wrap64 total) ∧
    (in_int64 total → held_balance s' peer = Some total) ∧
    (amounts ≠ [] ∨ balances s !! peer = None →
       held_balance (reload s') peer = Some (wrap64 total)) ∧
    (above_payment (paymentThreshold s) b0 amounts →
       credited evs = 0 ∧ issued_serials evs = [] ∧
       held_balance s' peer = Some (wrap64 (b0 + sumZ amounts))).
Proof.
  intros Hrel Hheld Hrange Hrun.
  destruct (AddRun_balance peer s amounts s' Hrun b0 Hrel Hheld)
    as (evs & Htr & Hrel' & Hnil & Hcons).
  exists evs. split; [done|]. intros total.
  assert (held_balance s' peer = Some (wrap64 total)
          ∧ (amounts ≠ [] ∨ balances s !! peer = None →
             held_balance (reload s') peer = Some (wrap64 total))) as [H1 H2].
  { destruct amounts as [|amount amounts].
    - destruct (Hnil eq_refl) as [-> ->]. subst total. unfold sumZ, credited. simpl.
      rewrite !Z.add_0_r, wrap64_small by done. split; [done|].
      intros [?|Hnone]; [done|].
      rewrite held_balance_reload, <- held_balance_uncached; done.
    - destruct Hcons as [Hb Hdata]; [done|]. split.
      + by apply held_balance_cached.
      + intros _. by apply held_balance_reload_stored. }
  split; [done|]. split; [|split; [done|]].
  { intros Htotal. rewrite H1, wrap64_small by done. done. }
  intros Habove.
  destruct (AddRun_unsettled peer s amounts s' Hrun b0 Hheld Habove)
    as (evs' & Htr' & Hc & Hi).
  rewrite Htr in Htr'. apply app_inv_head in Htr' as <-.
  split; [done|]. split; [done|]. rewrite H1. subst total. rewrite Hc, Z.add_0_r. done.
Qed.

End Sequences.

(** ** Cheque serials and cumulative amounts *)

Section Serials.
Context `{Ext : Externals}.


Lemma last_sent_loaded s peer last last' st :
  last_sent s peer = Some last → loaded_last s peer last' st → last' = last.
Proof.
  unfold last_sent.
  intros Hsent [[Hc _]|(Hc & _ & ->)]; rewrite Hc in Hsent; [congruence|].
  destruct (decode_cheque _) as [l [[|msg]|]]; simpl; congruence.
Qed.


Lemma serials_from_app first n m :
  serials_from first (n + m) = serials_from first n ++ serials_from (first + Z.of_nat n) m.
Proof.
  revert first. induction n as [|n IH]; intros first.
  - simpl. by rewrite Z.add_0_r.
  - simpl. rewrite IH. do 3 f_equal. lia.
Qed.












(** C10: when the last cheque of a peer is not cached and the store does
    not deliver it, whatever the error, [createCheque] does not stop: it
    carries on as for a first cheque, and the cheque it returns has serial 1
    and just the converted amount.  The only error it can then return is the
    signer's. *)
Theorem createCheque_ignores_load_error s peer e amount w :
  cheques s !! peer = None →
  (decode_cheque (Store_Get (sentChequeKey peer) (stateStore s)).1).2 = Some e →
  oracle_GetPrice (wrapu64 (wrap64 (- balance_at s peer))) (world s) = (inr amount, w) →
  ∃ c s',
    createCheque peer s
    = Some ((Some c, (cheque_Sign (unsigned c) (privateKey (owner s))).2), s') ∧
    Serial c = 1 ∧ Amount c = amount ∧
    cheques s' !! peer = Some None.
Proof.
  intros Hnone Hfail Ho.
  destruct (createCheque_cases s peer) as
    [(e' & w' & Ho' & _)|(amount' & w' & last & st & c & err & Ho' & Hlast & Hfol & _ & -> & Hc)];
    rewrite Ho in Ho'; [done|].
  injection Ho' as <- <-.
  assert (last = None) as ->.
  { destruct Hlast as [[Hc' _]|(_ & _ & ->)]; [congruence|].
    destruct (Store_Get _ _).1 as [e'|[z|c']]; simpl in *; done. }
  destruct Hfol as [Hser Hamt].
  eexists c, _. split; [exact Hc|]. simpl. rewrite lookup_insert_eq. done.
Qed.

End Serials.

(** ** Failures inside [Add] *)

Section Failures.
Context `{Ext : Externals}.

Lemma loaded_balance_fun s peer b e st b' e' st' :
  loaded_balance s peer b e st → loaded_balance s peer b' e' st' →
  b = b' ∧ e = e' ∧ st = st'.
Proof.
  intros [(Hb & -> & ->)|(Hb & -> & Hd)] [(Hb' & -> & ->)|(Hb' & -> & Hd')]; try congruence.
  - split; [congruence|done].
  - rewrite <- Hd in Hd'. injection Hd' as -> ->. done.
Qed.

(** The credit an event list of [sendCheque] reports. *)
Lemma credited_Add_events peer nb pay evs2 (r : option error) :
  credited (accounted peer nb :: settling peer pay
            :: evs2 ++ [match r with
                        | Some e => cheque_failed peer e
                        | None => cheque_sent peer
                        end])
  = credited evs2.
Proof.
  change (?a :: ?b :: ?l ++ ?f) with ([a; b] ++ l ++ f).
  rewrite !credited_app. unfold credited. destruct r; simpl; lia.
Qed.

(** C5 (amended): when [Add] has crossed the payment threshold and the
    cheque could not be issued or sent (the failure [Add] records with the
    error [e]), [Add] returns that very error to its caller; the delta of this
    call stays applied: the cached balance is the old one plus the amount,
    plus the credit when the failure came after [resetBalance], and the store
    holds the new balance, with or without that credit. *)
Theorem Add_returns_cheque_failure s amount peer b r s' evs e :
  held_balance s peer = Some b →
  Add amount peer s = Some (r, s') →
  trace s' = trace s ++ evs →
  cheque_failed peer e ∈ evs →
  r = Some e ∧
  wrap64 (b + amount) <= wrap64 (- paymentThreshold s) ∧
  balances s' !! peer = Some (wrap64 (b + amount + credited evs)) ∧
  (data (stateStore s') !! balanceKey peer = Some (VInt64 (wrap64 (b + amount))) ∨
   data (stateStore s') !! balanceKey peer
   = Some (VInt64 (wrap64 (b + amount + credited evs)))).
Proof.
  intros Hheld HAdd Htr Hin.
  destruct (Add_cases s amount peer)
    as (e0 & b' & st0 & r' & s2 & evs' & Hl & HAdd' & Htr' & _ & _ & _ & _ & Hcases).
  rewrite HAdd in HAdd'. injection HAdd' as <- <-.
  rewrite Htr in Htr'. apply app_inv_head in Htr' as <-.
  destruct (held_loaded _ _ _ _ _ _ Hheld Hl) as [-> _].
  destruct Hcases as [(_ & _ & _ & -> & _)|[_ Hcases]].
  { set_unfold. destruct Hin as [Hin|[]]. discriminate. }
  destruct Hcases as [(_ & _ & -> & _)|[_ Hcases]].
  { set_unfold. destruct Hin as [Hin|[]]. discriminate. }
  destruct Hcases as [(msg & _ & _ & -> & _)|[(_ & _ & _ & -> & _)|(Hle & _ & Hsend)]].
  { set_unfold. destruct Hin as [Hin|[Hin|[]]]; discriminate. }
  { set_unfold. destruct Hin as [Hin|[]]. discriminate. }
  destruct Hsend as (s1 & s2 & evs2 & Hb1 & Hdata1 & _ & _ & _ & Hsend & Htr2 & ->
                     & -> & -> & _).
  assert (balance_at s1 peer = wrap64 (b + amount)) as Hat.
  { unfold balance_at. rewrite Hb1, lookup_insert_eq. done. }
  rewrite credited_Add_events.
  destruct (sendCheque_cases s1 peer)
    as (r' & s2' & evs2' & Hsend' & Htr2' & _ & _ & _ & _ & Hc).
  rewrite Hsend in Hsend'. injection Hsend' as <- <-.
  rewrite Htr2 in Htr2'. apply app_inv_head in Htr2' as <-.
  assert (cheque_failed peer e ∉ accounted peer (wrap64 (b + amount))
                                 :: settling peer (paymentThreshold s) :: evs2) as Hnotin.
  { destruct Hc as [(e' & w & _ & _ & -> & _)
                   |(amt & w & last & st & c & _ & _ & _ & _
                     & [(e' & _ & -> & _)
                       |[(msg & _ & -> & _)
                        |(w' & _ & _ & _ & _ & [[-> _]|(-> & _)])]])];
      set_unfold; intros Hin'; destruct_or!; discriminate. }
  assert (r = Some e) as ->.
  { change (?a :: ?b :: ?l ++ ?f) with ((a :: b :: l) ++ f) in Hin.
    apply elem_of_app in Hin as [Hin|Hin]; [done|].
    destruct r as [e'|]; set_unfold; destruct Hin as [Hin|[]]; [|discriminate].
    injection Hin as ->. done. }
  split; [done|]. split; [done|].
  destruct Hc as [(e' & w & _ & _ & -> & Hb2 & Hdata2 & _)
                 |(amt & w & last & st & c & _ & _ & _ & _ & Hc)].
  { rewrite Hb2, Hdata2, Hb1, Hdata1, !lookup_insert_eq. unfold credited. simpl.
    rewrite !Z.add_0_r. auto. }
  destruct Hc as [(e' & _ & -> & Hb2 & Hdata2 & _)
                 |[(msg & _ & -> & Hb2 & Hdata2 & _)|(w' & _ & _ & Hb2 & _ & Hc)]].
  - rewrite Hb2, Hdata2, Hb1, Hdata1, !lookup_insert_eq. unfold credited. simpl.
    rewrite !Z.add_0_r. auto.
  - rewrite Hb2, Hdata2, Hb1, Hdata1, !lookup_insert_eq. unfold credited. simpl.
    rewrite !Z.add_0_r. auto.
  - simpl in Hb2, Hc. rewrite Hat in Hb2, Hc. rewrite Hb2, lookup_insert_eq.
    destruct Hc as [(-> & Hdata2)|(-> & Hdata2 & _)]; rewrite Hdata2; unfold credited; simpl;
      rewrite Z.add_0_r, wrap64_add_l.
    + rewrite lookup_insert_eq. auto.
    + rewrite lookup_insert_ne by (apply not_eq_sym, balanceKey_sentChequeKey).
      rewrite Hdata1, lookup_insert_eq. auto.
Qed.

(** C7 (amended): when the store fails, with an error other than not-found,
    the read or the write of the balance in [Add], [Add] returns that error
    and nothing has been written: the store holds what it held, no cheque has
    been created and the environment has not been called.  The cache is not
    restored: after a failed write it holds the new balance. *)
Theorem Add_store_error s amount peer e :
  store_error_in_Add s amount peer e →
  ∃ s',
    Add amount peer s = Some (Some e, s') ∧
    data (stateStore s') = data (stateStore s) ∧
    cheques s' = cheques s ∧
    (∀ b, held_balance s peer = Some b →
          balances s' !! peer = Some (wrap64 (b + amount))).
Proof.
  intros Hfail.
  destruct (Add_cases s amount peer)
    as (e0 & b & st0 & r & s' & evs & Hl & HAdd & _ & _ & _ & _ & _ & Hcases).
  exists s'.
  destruct Hfail as [(Hnone & Hdec & Hne)|(b' & e0' & st0' & Hl' & He0 & Hlt & Hput)].
  - assert (e0 = Some e) as ->.
    { destruct Hl as [(Hb & _)|(_ & _ & Hd)]; [congruence|].
      rewrite <- Hd in Hdec. done. }
    destruct Hcases as [(_ & _ & -> & _ & _ & Hdata & Hch)|[[?|?] _]]; [|done|congruence].
    repeat (split; [done|]). intros b0 Hheld.
    destruct (held_loaded _ _ _ _ _ _ Hheld Hl) as [_ [?|?]]; [done|congruence].
  - destruct (loaded_balance_fun _ _ _ _ _ _ _ _ Hl Hl') as (<- & <- & <-).
    destruct Hcases as [(He1 & He2 & _)|[_ Hcases]].
    { destruct He0 as [-> | ->]; done. }
    destruct Hcases as [(Hge & _)|[_ Hcases]]; [lia|].
    destruct Hcases as [(msg & Hput' & -> & _ & Hb & Hdata & Hch & _)
                       |[(_ & Hput' & _)|(_ & Hput' & _)]]; [|congruence..].
    rewrite Hput in Hput'. injection Hput' as ->.
    repeat (split; [done|]). intros b0 Hheld.
    destruct (held_loaded _ _ _ _ _ _ Hheld Hl) as [-> _].
    rewrite Hb. apply lookup_insert_eq.
Qed.

End Failures.

(** ** Deployment with bounded retries *)

Section Deployment.
Context `{Ext : Externals}.
Variables (opts : TransactOpts) (owner : Address) (timeout : Z).

Lemma error_after_cons err f fs :
  error_after err (f :: fs) = error_after (Some (failure_error f)) fs.
Proof.
  unfold error_after. destruct fs as [|f' fs]; [done|].
  rewrite last_cons_cons. destruct (last (f' :: fs)) eqn:Hlast; [done|].
  by apply last_None in Hlast.
Qed.

Lemma fails_app_inv w fs1 fs2 w2 :
  fails opts owner timeout w (fs1 ++ fs2) w2 →
  ∃ w1, fails opts owner timeout w fs1 w1 ∧ fails opts owner timeout w1 fs2 w2.
Proof.
  revert w. induction fs1 as [|f fs1 IH]; intros w Hf; simpl in *.
  - exists w. split; [constructor|done].
  - inversion Hf as [|? ? ? ? ? ? ? Hd Hrest|? ? ? ? ? ? ? ? ? Hd Hw Hrest]; subst;
      destruct (IH _ Hrest) as (w1' & H1 & H2); exists w1'; (split; [|done]);
      econstructor; eauto.
Qed.

(** One iteration of the loop. *)
Lemma deployLoop_from_S n try addr err s :
  deployLoop_from (S n) try addr err opts owner timeout s
  = let s0 := if 0 <? try then set_trace (trace s ++ [Sleep deployDelay]) s else s in
    let d := swap_Deploy opts owner timeout (world s) in
    let s1 := set_contractReference d.1.1.1 (set_world d.2 s0) in
    match d.1.2 with
    | Some e =>
        deployLoop_from n (try + 1) addr (Some e) opts owner timeout
          (set_trace (trace s1 ++ [Log LvlWarn "can't send chequebook deploy tx"
                                       [LStr "try"; LInt try; LStr "error"; LErr e]]) s1)
    | None =>
        let c := bind_WaitDeployed d.1.1.2 d.2 in
        let s2 := set_world c.2 s1 in
        match c.1.2 with
        | Some e =>
            deployLoop_from n (try + 1) c.1.1 (Some e) opts owner timeout
              (set_trace (trace s2 ++ [Log LvlWarn "chequebook deploy error"
                                           [LStr "try"; LInt try; LStr "error"; LErr e]]) s2)
        | None => Some ((c.1.1, None), s2)
        end
    end.
Proof.
  simpl. unfold bind, world_op, modify, sleep, log, ret.
  destruct (0 <? try); simpl;
    destruct (swap_Deploy opts owner timeout (world s)) as [[[ref tx] [e|]] w]; simpl;
    try reflexivity;
    destruct (bind_WaitDeployed tx w) as [[a [e|]] w']; reflexivity.
Qed.

(** The loop runs through failing attempts: each costs one iteration, is
    preceded by a sleep unless it is the very first, and leaves its error in
    the named result. *)
Lemma deployLoop_from_fails w fs w1 :
  fails opts owner timeout w fs w1 →
  ∀ n try addr err s,
    world s = w →
    ∃ addr' ref,
      deployLoop_from (length fs + n) try addr err opts owner timeout s
      = deployLoop_from n (try + Z.of_nat (length fs)) addr' (error_after err fs)
          opts owner timeout
          (set_trace (trace s ++ failure_events try fs)
             (set_contractReference ref (set_world w1 s))).
Proof.
  induction 1 as [w|w ref tx e w1 fs w2 Hd Hf IH|w ref tx w0 a e w1 fs w2 Hd Hw Hf IH];
    intros n try addr err s Hs.
  - exists addr, (contractReference s). simpl. rewrite Z.add_0_r, app_nil_r.
    subst w. destruct s; reflexivity.
  - cbn [length Nat.add]. rewrite deployLoop_from_S, Hs, Hd. simpl.
    match goal with |- context [deployLoop_from _ _ _ _ _ _ _ ?s1] =>
      destruct (IH n (try + 1) addr (Some e) s1 eq_refl) as (addr' & ref' & ->) end.
    exists addr', ref'. rewrite error_after_cons. simpl failure_error.
    replace (try + 1 + Z.of_nat (length fs)) with (try + Z.of_nat (S (length fs))) by lia.
    f_equal. destruct s; simpl. destruct (0 <? try); simpl;
      rewrite <- ?app_assoc; reflexivity.
  - cbn [length Nat.add]. rewrite deployLoop_from_S, Hs, Hd. simpl. rewrite Hw. simpl.
    match goal with |- context [deployLoop_from _ _ _ _ _ _ _ ?s1] =>
      destruct (IH n (try + 1) a (Some e) s1 eq_refl) as (addr' & ref' & ->) end.
    exists addr', ref'. rewrite error_after_cons. simpl failure_error.
    replace (try + 1 + Z.of_nat (length fs)) with (try + Z.of_nat (S (length fs))) by lia.
    f_equal. destruct s; simpl. destruct (0 <? try); simpl;
      rewrite <- ?app_assoc; reflexivity.
Qed.

(** The loop sleeps once per failed attempt, except before the very first. *)
Lemma failure_events_sleeps_later try fs :
  0 < try → sleeps (failure_events try fs) = replicate (length fs) deployDelay.
Proof.
  unfold sleeps. revert try. induction fs as [|f fs IH]; intros try Htry; [done|].
  simpl. destruct (Z.ltb_spec 0 try) as [_|?]; [|lia]. simpl.
  f_equal. apply IH. lia.
Qed.

Lemma failure_events_sleeps fs :
  sleeps (failure_events 0 fs) = replicate (length fs - 1) deployDelay.
Proof.
  destruct fs as [|f fs]; [done|].
  pose proof (failure_events_sleeps_later 1 fs) as Hlater.
  unfold sleeps in *. simpl. rewrite Nat.sub_0_r. apply Hlater. lia.
Qed.

(** C8: let the backend fail the attempts [fs], one after the other
    ([k = length fs] times), and let the retry bound be positive.  If the
    backend then succeeds, [deployLoop] returns no error exactly when [k] is
    less than the bound, and then returns the deployed address.  If the
    failures are as many as the bound, [deployLoop] has made exactly that
    many attempts (the backend is left as after the last one), has slept for
    the fixed delay before each attempt but the first, and returns the error
    of the last attempt as it got it. *)
Theorem deployLoop_retries s fs w1 :
  0 < deployRetries →
  fails opts owner timeout (world s) fs w1 →
  (∀ addr w2,
      succeeds opts owner timeout w1 addr w2 →
      ∃ a err s',
        deployLoop opts owner timeout s = Some ((a, err), s') ∧
        (err = None ↔ Z.of_nat (length fs) < deployRetries) ∧
        (err = None →
           a = addr ∧ world s' = w2 ∧
           trace s' = trace s ++ failure_events 0 fs
                      ++ (if 0 <? Z.of_nat (length fs) then [Sleep deployDelay] else []))) ∧
  (Z.of_nat (length fs) = deployRetries →
     ∃ a s',
       deployLoop opts owner timeout s
       = Some ((a, failure_error <$> last fs), s') ∧
       world s' = w1 ∧
       trace s' = trace s ++ failure_events 0 fs ∧
       sleeps (failure_events 0 fs) = replicate (length fs - 1) deployDelay).
Proof.
  intros Hpos Hfails. unfold deployLoop. split.
  - intros addr w2 (ref & tx & w0 & Hd & Hw).
    destruct (Z.lt_ge_cases (Z.of_nat (length fs)) deployRetries) as [Hlt|Hge].
    + destruct (deployLoop_from_fails _ _ _ Hfails
                  (Z.to_nat deployRetries - length fs) 0 0 None s eq_refl)
        as (addr' & ref' & Heq).
      replace (length fs + (Z.to_nat deployRetries - length fs))%nat
        with (Z.to_nat deployRetries) in Heq by lia.
      rewrite Heq.
      destruct (Z.to_nat deployRetries - length fs)%nat as [|n] eqn:Hn; [lia|].
      rewrite deployLoop_from_S. simpl. rewrite Hd. simpl. rewrite Hw. simpl.
      eexists _, _, _. split; [reflexivity|]. simpl. split; [done|]. intros _.
      split; [done|]. split; [done|]. rewrite Z.add_0_l.
      destruct (0 <? Z.of_nat (length fs)); simpl; by rewrite ?app_nil_r, <- ?app_assoc.
    + replace fs with (take (Z.to_nat deployRetries) fs ++ drop (Z.to_nat deployRetries) fs)
        in Hfails by apply take_drop.
      apply fails_app_inv in Hfails as (w' & Hfails & _).
      destruct (deployLoop_from_fails _ _ _ Hfails 0 0 0 None s eq_refl)
        as (addr' & ref' & Heq).
      rewrite Nat.add_0_r, length_take, Nat.min_l in Heq by lia.
      rewrite Heq. simpl. eexists _, _, _. split; [reflexivity|].
      assert (error_after None (take (Z.to_nat deployRetries) fs) ≠ None) as Hne.
      { unfold error_after.
        destruct (last (take (Z.to_nat deployRetries) fs)) eqn:Hlast; [done|].
        apply last_None in Hlast. apply (f_equal length) in Hlast.
        rewrite length_take in Hlast. simpl in Hlast. lia. }
      split; [split; [done|lia]|done].
  - intros Hlen.
    destruct (deployLoop_from_fails _ _ _ Hfails 0 0 0 None s eq_refl)
      as (addr' & ref' & Heq).
    rewrite Nat.add_0_r in Heq. replace (Z.to_nat deployRetries) with (length fs) by lia.
    rewrite Heq. simpl. eexists _, _.
    split; [do 3 f_equal; unfold error_after; by destruct (last fs)|].
    repeat (split; [done|]). apply failure_events_sleeps.
Qed.

End Deployment.

(** ** Enumerating the peers with a balance *)

Section Peers.
Context `{Ext : Externals}.

(** The first loop lists the cached peers and marks exactly them. *)
Lemma collect_fold (l : list ID) (acc : list ID * gmap ID bool) :
  let res := foldl (λ acc peerID, (acc.1 ++ [peerID], <[peerID := true]> acc.2)) acc l in
  res.1 = acc.1 ++ l ∧
  ∀ p, is_Some (res.2 !! p) ↔ is_Some (acc.2 !! p) ∨ p ∈ l.
Proof.
  revert acc. induction l as [|x l IH]; intros [ps known]; simpl.
  - rewrite app_nil_r. split; [done|]. set_solver.
  - destruct (IH (ps ++ [x], <[x := true]> known)) as [H1 H2]. simpl in *.
    rewrite H1, <- app_assoc. split; [done|].
    intros p. rewrite H2, lookup_insert. set_unfold.
    destruct (decide (x = p)) as [->|Hne]; simpl; [|naive_solver].
    split; [auto|]. intros _. left. by eexists.
Qed.

Lemma collectMemoryPeers_spec (bals : gmap ID Z) :
  (collectMemoryPeers bals).1 = (map_to_list bals).*1 ∧
  ∀ p, is_Some ((collectMemoryPeers bals).2 !! p) ↔ p ∈ dom bals.
Proof.
  unfold collectMemoryPeers.
  destruct (collect_fold (map_to_list bals).*1 ([], ∅)) as [H1 H2]. simpl in *.
  split; [done|]. intros p. rewrite H2, lookup_empty, elem_of_dom.
  rewrite list_elem_of_fmap. split.
  - intros [[? [=]]|([q v] & -> & Hin)]. apply elem_of_map_to_list in Hin. by eexists.
  - intros [v Hv]. right. exists (p, v). split; [done|]. by apply elem_of_map_to_list.
Qed.

(** The second loop appends, once each, the identities of the store keys
    that are not marked. *)
Lemma appendStorePeers_spec (knownPeers : gmap ID bool) (keys : list string) :
  Forall balance_key_ok keys → NoDup keys →
  ∀ peers, ∃ extra,
    appendStorePeers knownPeers keys peers = Some (peers ++ extra) ∧
    NoDup extra ∧
    ∀ p, p ∈ extra ↔
         knownPeers !! p = None ∧ ∃ k, k ∈ keys ∧ keyToID k balancePrefix = Some p.
Proof.
  induction keys as [|k keys IH]; intros Hok Hnd peers.
  - exists []. simpl. rewrite app_nil_r. split; [done|]. split; [constructor|].
    set_solver.
  - apply Forall_cons in Hok as [(q & Hq & Hkey) Hok]. apply NoDup_cons in Hnd as [Hk Hnd].
    simpl. rewrite Hq. destruct (knownPeers !! q) as [mark|] eqn:Hknown.
    + destruct (IH Hok Hnd peers) as (extra & -> & Hnd' & Hin). exists extra.
      split; [done|]. split; [done|]. intros p. rewrite Hin. set_unfold.
      split; [naive_solver|]. intros [Hp (k' & [->|Hk'] & Hdec)]; [|naive_solver].
      congruence.
    + destruct (IH Hok Hnd (peers ++ [q])) as (extra & -> & Hnd' & Hin).
      exists (q :: extra). rewrite <- app_assoc. split; [done|]. split.
      * apply NoDup_cons. split; [|done]. rewrite Hin. intros [_ (k' & Hk' & Hdec)].
        apply Hk. rewrite Forall_forall in Hok.
        destruct (Hok k' Hk') as (q' & Hq' & Hkey'). rewrite Hdec in Hq'.
        injection Hq' as <-. by rewrite <- Hkey, Hkey'.
      * intros p. rewrite elem_of_cons, Hin. set_unfold.
        split; [intros [->|?]; naive_solver|].
        intros [Hp (k' & [->|Hk'] & Hdec)]; [left; congruence|naive_solver].
Qed.

(** C9: when the store enumerates its keys, and the keys it holds under the
    balance prefix are balance keys of peers, [BalancePeers] returns, without
    a repetition, exactly the peers that have an entry in the balance cache
    and the peers whose balance key is in the store. *)
Theorem BalancePeers_union s :
  (Store_Keys balancePrefix (stateStore s)).1.2 = None →
  Forall balance_key_ok (stored_balance_keys (stateStore s)) →
  ∃ peers s',
    BalancePeers s = Some ((peers, None), s') ∧
    NoDup peers ∧
    ∀ p, p ∈ peers ↔ p ∈ dom (balances s) ∨ Some p ∈ store_peers (stateStore s).
Proof.
  intros Hkeys Hok. unfold BalancePeers, bind, gets, store_op, ret, panic.
  destruct (collectMemoryPeers_spec (balances s)) as [Hmem Hknown].
  destruct (collectMemoryPeers (balances s)) as [mem known]. simpl in Hmem, Hknown.
  assert (∃ st, Store_Keys balancePrefix (stateStore s)
                = ((stored_balance_keys (stateStore s), None), st)) as [st Hst].
  { revert Hkeys. unfold Store_Keys, Store_next, stored_balance_keys.
    destruct (faults (stateStore s)) as [|[msg|] fs]; simpl; [eauto|done|eauto]. }
  rewrite Hst.
  destruct (appendStorePeers_spec known (stored_balance_keys (stateStore s)) Hok)
    with (peers := mem) as (extra & -> & Hnd & Hin).
  { apply NoDup_filter, NoDup_elements. }
  eexists _, _. split; [reflexivity|]. subst mem. split.
  - apply NoDup_app. split; [apply NoDup_fst_map_to_list|]. split; [|done].
    intros p Hp Hp'. apply Hin in Hp' as [Hnone _].
    assert (is_Some (known !! p)) as [? ?]; [|congruence].
    apply Hknown, elem_of_dom. apply list_elem_of_fmap in Hp as ([q v] & -> & Hp).
    apply elem_of_map_to_list in Hp. by eexists.
  - intros p. rewrite elem_of_app, Hin.
    assert (p ∈ (map_to_list (balances s)).*1 ↔ p ∈ dom (balances s)) as ->.
    { rewrite elem_of_dom, list_elem_of_fmap. split.
      - intros ([q v] & -> & Hp). apply elem_of_map_to_list in Hp. by eexists.
      - intros [v Hv]. exists (p, v). split; [done|]. by apply elem_of_map_to_list. }
    unfold store_peers. rewrite list_elem_of_fmap.
    split.
    + intros [?|[_ (k & Hk & Hdec)]]; [by left|]. right. eauto.
    + intros [?|(k & Hdec & Hk)]; [by left|].
      destruct (decide (p ∈ dom (balances s))) as [?|Hnot]; [by left|]. right.
      split; [|eauto]. apply eq_None_not_Some. by rewrite Hknown.
Qed.

End Peers.


(** ** The ledger at work: the properties above on concrete runs *)

Section Runs.
Import Demo.

(** C6: the second cheque to a peer.  The peer owes 101 again, the oracle
    converts 101 honey to 101, and the cheque carries the cumulative amount
    202; [sendCheque] credits the balance by 202, not by the 101 converted for
    this cheque, and the balance ends at +101 instead of 0. *)
Theorem second_cheque_credits_cumulative_amount :
  held_balance settled_once 7 = Some 0 ∧
  result (Add (-101) 7) settled_once = Some None ∧
  (getPrice 101 env0).1 = inr 101 ∧
  cheque_at settled_twice 7 = Some (mkCheque 500 1007 2 202 101 86400 []) ∧
  credited (drop (length (trace settled_once)) (trace settled_twice)) = 202 ∧
  balances settled_twice !! 7 = Some 101 ∧
  data (stateStore settled_twice) !! "balance_7" = Some (VInt64 101).
Proof. vm_compute. repeat split; reflexivity. Qed.

(** C5, as stated, fails: the oracle is down when peer 7 crosses the payment
    threshold, and [Add] returns the oracle's error, not [nil]. *)
Lemma Add_returns_oracle_error :
  held_balance no_oracle 7 = Some 0 ∧
  paymentThreshold no_oracle = 100 ∧
  result (Add (-101) 7) no_oracle = Some (Some (ErrorString "no price")) ∧
  result (Add (-101) 7) no_oracle ≠ Some None ∧
  balances (after (Add (-101) 7) no_oracle) !! 7 = Some (-101).
Proof. vm_compute. repeat split; try reflexivity. discriminate. Qed.

(** C7, as stated, fails: the store refuses the new balance of peer 7, [Add]
    returns the error, and the balance in memory has changed from 0 to 5. *)
Lemma Add_failed_write_changes_memory :
  held_balance failing_write 7 = Some 0 ∧
  result (Add 5 7) failing_write = Some (Some (ErrorString "disk full")) ∧
  balances (after (Add 5 7) failing_write) !! 7 = Some 5 ∧
  held_balance (after (Add 5 7) failing_write) 7 ≠ held_balance failing_write 7 ∧
  data (stateStore (after (Add 5 7) failing_write)) !! "balance_7" = None.
Proof. vm_compute. repeat split; try reflexivity. discriminate. Qed.

(** A failed read, for comparison: the stored balance of 57 is untouched, but
    the cache now answers 0 for peer 7. *)
Example failed_read_caches_zero :
  result (Add 5 7) failing_read = Some (Some (ErrorString "i/o error")) ∧
  data (stateStore (after (Add 5 7) failing_read)) !! "balance_7" = Some (VInt64 57) ∧
  balances (after (Add 5 7) failing_read) !! 7 = Some 0.
Proof. vm_compute. repeat split; reflexivity. Qed.

(** Peer 7 is owed 150 with a threshold of 100: the next call is rejected. *)
Lemma Add_at_disconnect_threshold_witness :
  ∃ s',
    Add 1 7 overdrawn
    = Some (Some (ErrorString (disconnectMessage 7 (disconnectThreshold overdrawn))), s') ∧
    balances s' = <[7 := 150]> (balances overdrawn) ∧
    held_balance s' 7 = Some 150 ∧
    data (stateStore s') = data (stateStore overdrawn).
Proof.
  apply (Add_at_disconnect_threshold overdrawn 1 7 150).
  - vm_compute. reflexivity.
  - vm_compute. discriminate.
Defined.

(** The oracle is down when peer 7 crosses the payment threshold. *)
Lemma Add_returns_cheque_failure_witness :
  result (Add (-101) 7) no_oracle = Some (Some (ErrorString "no price")) ∧
  wrap64 (0 + -101) <= wrap64 (- paymentThreshold no_oracle) ∧
  balances (after (Add (-101) 7) no_oracle) !! 7
  = Some (wrap64 (0 + -101 + credited (trace (after (Add (-101) 7) no_oracle)))) ∧
  (data (stateStore (after (Add (-101) 7) no_oracle)) !! balanceKey 7
   = Some (VInt64 (wrap64 (0 + -101))) ∨
   data (stateStore (after (Add (-101) 7) no_oracle)) !! balanceKey 7
   = Some (VInt64 (wrap64 (0 + -101 + credited (trace (after (Add (-101) 7) no_oracle)))))).
Proof.
  destruct (Add_returns_cheque_failure no_oracle (-101) 7 0
              (result (Add (-101) 7) no_oracle ≫= id)
              (after (Add (-101) 7) no_oracle)
              (trace (after (Add (-101) 7) no_oracle))
              (ErrorString "no price")) as (Hr & Hrest).
  - vm_compute. reflexivity.
  - vm_compute. reflexivity.
  - reflexivity.
  - apply list_elem_of_In. vm_compute. tauto.
  - split; [|exact Hrest]. vm_compute. reflexivity.
Defined.

(** The store refuses the new balance of peer 7. *)
Lemma Add_store_error_witness :
  ∃ s',
    Add 5 7 failing_write = Some (Some (ErrorString "disk full"), s') ∧
    data (stateStore s') = data (stateStore failing_write) ∧
    cheques s' = cheques failing_write ∧
    (∀ b, held_balance failing_write 7 = Some b →
          balances s' !! 7 = Some (wrap64 (b + 5))).
Proof.
  apply (Add_store_error failing_write 5 7 (ErrorString "disk full")).
  right. exists 0, (Some ErrNotFound), (mkStore ∅ [Some "disk full"]).
  split; [right|split; [by right|split]]; repeat split; vm_compute; reflexivity.
Defined.

(** Two failed submissions, then a deployment at address 4242, with a bound
    of 5. *)
Lemma deployLoop_retries_witness :
  ∃ a err s',
    deployLoop opts0 512 86400 two_failures = Some ((a, err), s') ∧
    (err = None ↔ Z.of_nat 2 < deployRetries) ∧
    (err = None →
       a = 4242 ∧ world s' = env0 ∧
       trace s'
       = trace two_failures
         ++ failure_events 0 [SubmitFailed (ErrorString "deploy failed, left 1");
                              SubmitFailed (ErrorString "deploy failed, left 0")]
         ++ [Sleep deployDelay]).
Proof.
  apply (proj1 (deployLoop_retries opts0 512 86400 two_failures
                  [SubmitFailed (ErrorString "deploy failed, left 1");
                   SubmitFailed (ErrorString "deploy failed, left 0")] env0
                  ltac:(vm_compute; reflexivity)
                  ltac:(eapply fails_submit; [vm_compute; reflexivity|];
                        eapply fails_submit; [vm_compute; reflexivity|];
                        apply fails_nil))
           4242 env0).
  exists (Some 1), 7, env0. split; vm_compute; reflexivity.
Defined.

(** Peer 9 is cached and stored, peer 7 is only stored. *)
Lemma BalancePeers_union_witness :
  ∃ peers s',
    BalancePeers two_peers = Some ((peers, None), s') ∧
    NoDup peers ∧
    ∀ p, p ∈ peers ↔ p ∈ dom (balances two_peers) ∨ Some p ∈ store_peers (stateStore two_peers).
Proof.
  apply (BalancePeers_union two_peers).
  - vm_compute. reflexivity.
  - assert (stored_balance_keys (stateStore two_peers) = ["balance_7"; "balance_9"]) as ->
      by (vm_compute; reflexivity).
    repeat constructor; eexists; split; vm_compute; reflexivity.
Defined.

(** The store holds cheque 5 for peer 7 but fails the read: the new cheque
    has serial 1. *)
Lemma createCheque_ignores_load_error_witness :
  ∃ c s',
    createCheque 7 unreadable_cheque
    = Some ((Some c, (cheque_Sign (unsigned c) (privateKey (owner unreadable_cheque))).2), s') ∧
    Serial c = 1 ∧ Amount c = 101 ∧
    cheques s' !! 7 = Some None.
Proof.
  apply (createCheque_ignores_load_error unreadable_cheque 7 (ErrorString "i/o error") 101 env0);
    vm_compute; reflexivity.
Defined.

(** C1, as stated, fails: on the run [Add(-40)], [Add(-61)] for peer 7 of a
    fresh node the balance never reaches the disconnect threshold, the deltas
    sum to -101, and the balance ends at 0, because the second call settles
    and the cheque's amount is credited. *)
Lemma balance_differs_from_sum_of_deltas :
  AddRun 7 fresh [-40; -61] settled_once ∧
  held_balance fresh 7 = Some 0 ∧
  0 + sumZ [-40; -61] = -101 ∧
  held_balance settled_once 7 = Some 0 ∧
  held_balance (reload settled_once) 7 = Some 0 ∧
  held_balance settled_once 7 ≠ Some (0 + sumZ [-40; -61]).
Proof.
  split.
  - apply (AddRun_cons 7 fresh (-40) [-61] 0 None owing40);
      [vm_compute; reflexivity..|].
    apply (AddRun_cons 7 owing40 (-61) [] (-40) None settled_once);
      [vm_compute; reflexivity..|].
    apply AddRun_nil.
  - vm_compute. repeat split; try reflexivity. discriminate.
Qed.

(** The running sum on the run [Add(-40)], [Add(-61)] for peer 7 of a fresh
    node: the second call settles, and the credit of 101 is part of the sum.
    On the run [Add(-40)], [Add(30)] no call settles, and the balance is the
    sum of the deltas, -10. *)
Lemma balance_is_running_sum_witness :
  (∃ evs,
      trace settled_once = trace fresh ++ evs ∧
      let total := 0 + sumZ [-40; -61] + credited evs in
      held_balance settled_once 7 = Some (wrap64 total) ∧
      (in_int64 total → held_balance settled_once 7 = Some total) ∧
      ([-40; -61] ≠ [] ∨ balances fresh !! 7 = None →
         held_balance (reload settled_once) 7 = Some (wrap64 total)) ∧
      (above_payment (paymentThreshold fresh) 0 [-40; -61] →
         credited evs = 0 ∧ issued_serials evs = [] ∧
         held_balance settled_once 7 = Some (wrap64 (0 + sumZ [-40; -61])))) ∧
  (∃ evs,
      trace owing10 = trace fresh ++ evs ∧
      credited evs = 0 ∧ issued_serials evs = [] ∧
      held_balance owing10 7 = Some (wrap64 (0 + sumZ [-40; 30])) ∧
      held_balance (reload owing10) 7 = Some (wrap64 (0 + sumZ [-40; 30] + credited evs))).
Proof.
  split.
  - apply (balance_is_running_sum 7 fresh [-40; -61] settled_once 0).
    + reflexivity.
    + vm_compute. reflexivity.
    + unfold in_int64. lia.
    + apply (AddRun_cons 7 fresh (-40) [-61] 0 None owing40);
        [vm_compute; reflexivity..|].
      apply (AddRun_cons 7 owing40 (-61) [] (-40) None settled_once);
        [vm_compute; reflexivity..|].
      apply AddRun_nil.
  - destruct (balance_is_running_sum 7 fresh [-40; 30] owing10 0)
      as (evs & Htr & _ & _ & Hreload & Hquiet).
    + reflexivity.
    + vm_compute. reflexivity.
    + unfold in_int64. lia.
    + apply (AddRun_cons 7 fresh (-40) [30] 0 None owing40);
        [vm_compute; reflexivity..|].
      apply (AddRun_cons 7 owing40 30 [] (-40) None owing10);
        [vm_compute; reflexivity..|].
      apply AddRun_nil.
    + destruct Hquiet as (Hc & Hi & Hheld); [vm_compute; repeat split; reflexivity|].
      exists evs. split; [exact Htr|]. split; [exact Hc|]. split; [exact Hi|].
      split; [exact Hheld|]. apply Hreload. left. discriminate.
Defined.

(** Peer 7 owes 40 and is charged 61 more: the balance reached, -101, is at
    the payment threshold, and cheque 1 for 101 honey is issued, sent and
    credited.  A fresh node accounts 150 for peer 7 although the disconnect
    threshold is 100, and rejects the call after that. *)
Lemma Add_checks_before_and_after_witness :
  (∃ r s' evs c,
      Add (-61) 7 owing40 = Some (r, s') ∧
      trace s' = trace owing40 ++ evs ∧
      Honey c = 101 ∧
      issued_serials evs = [Serial c] ∧
      cheque_at s' 7 = Some c ∧
      data (stateStore s') !! sentChequeKey 7 = Some (VCheque c) ∧
      r = (peer_Send 7 (mkEmitChequeMsg c) env0).1 ∧
      world s' = (peer_Send 7 (mkEmitChequeMsg c) env0).2 ∧
      held_balance s' 7 = Some (wrap64 (wrap64 (-40 + -61) + wrap64 (Amount c)))) ∧
  (∃ r s',
      Add 150 7 fresh = Some (r, s') ∧
      r = None ∧ held_balance s' 7 = Some 150 ∧
      ∀ amount', ∃ s'',
        Add amount' 7 s'
        = Some (Some (ErrorString (disconnectMessage 7 (disconnectThreshold fresh))), s'') ∧
        held_balance s'' 7 = Some 150).
Proof.
  split.
  - destruct (Add_checks_before_and_after owing40 (-61) 7 (-40))
      as (r & s' & evs & HAdd & Htr & _ & Hacc);
      [vm_compute; reflexivity..|].
    destruct Hacc as (evs' & _ & _ & Hsettle); [vm_compute; reflexivity|].
    destruct Hsettle as (_ & _ & Hissue); [vm_compute; discriminate|].
    destruct (Hissue 101 env0) as (c & Hc); [vm_compute; reflexivity|intros c; reflexivity|].
    exists r, s', evs, c. split; [exact HAdd|]. split; [exact Htr|]. exact Hc.
  - destruct (Add_checks_before_and_after fresh 150 7 0)
      as (r & s' & evs & HAdd & _ & _ & Hacc);
      [vm_compute; reflexivity..|].
    destruct Hacc as (evs' & _ & Hquiet & _); [vm_compute; reflexivity|].
    destruct Hquiet as (_ & Hr & Hheld & _ & _ & Hnext); [vm_compute; reflexivity|].
    exists r, s'. split; [exact HAdd|]. split; [exact Hr|]. split; [exact Hheld|].
    apply Hnext. vm_compute. discriminate.
Defined.



(** C9, as stated, fails: the store of [twin_keys] holds two keys under the
    balance prefix that decode to peer 7, which is not cached, and
    [BalancePeers] lists peer 7 twice. *)
Lemma BalancePeers_repeats_a_peer :
  stored_balance_keys (stateStore twin_keys) = ["balance_7"; "balance_07"] ∧
  balances twin_keys = ∅ ∧
  BalancePeers twin_keys = Some (([7; 7], None), twin_keys) ∧
  ¬ NoDup [7; 7].
Proof.
  split; [vm_compute; reflexivity|]. split; [reflexivity|].
  split; [vm_compute; reflexivity|].
  intros Hnd. apply NoDup_cons in Hnd as [Hnot _]. apply Hnot. left.
Qed.

End Runs.


(** ** Machine integers: conversions between [int64] and [uint64] *)

Lemma wrap64_wrapu64 z : wrap64 (wrapu64 z) = wrap64 z.
Proof.
  unfold wrap64, wrapu64. f_equal.
  rewrite Zplus_mod_idemp_l. done.
Qed.

(** ** Store keys and the identities read back from them *)

Section Keys.
Context `{Ext : Externals}.

Lemma substring_all (x : string) : String.substring 0 (String.length x) x = x.
Proof. induction x as [|b x IHx]; simpl; [done|]. by rewrite IHx. Qed.

Lemma substring_drop_prefix (pre x : string) :
  String.substring (String.length pre) (String.length (pre +:+ x) - String.length pre)
                   (pre +:+ x) = x.
Proof.
  induction pre as [|a pre IH].
  - change ("" +:+ x) with x. change (String.length "") with 0%nat.
    rewrite Nat.sub_0_r. apply substring_all.
  - exact IH.
Qed.

Lemma length_app_prefix (pre x : string) :
  (String.length pre <=? String.length (pre +:+ x))%nat = true.
Proof. apply Nat.leb_le. induction pre; simpl; lia. Qed.

(** X1: [keyToID] undoes the three key constructors.  The key built for a
    peer, read back with the prefix it was built with, gives the identity that
    [enode.HexID] parses from the peer's own string form. *)
Theorem keyToID_round_trip peer :
  keyToID (balanceKey peer) balancePrefix = HexID (ID_String peer) ∧
  keyToID (sentChequeKey peer) sentChequePrefix = HexID (ID_String peer) ∧
  keyToID (receivedChequeKey peer) receivedChequePrefix = HexID (ID_String peer).
Proof.
  unfold keyToID, balanceKey, sentChequeKey, receivedChequeKey.
  rewrite !length_app_prefix, !substring_drop_prefix. done.
Qed.

End Keys.

(** ** Accounting for one peer leaves the others alone *)

Section Isolation.
Context `{Ext : Externals}.

Lemma key_app_inj (pre x y : string) : pre +:+ x = pre +:+ y → x = y.
Proof. induction pre as [|a pre IH]; simpl; [done|]. intros [= ?]. auto. Qed.

Lemma balanceKey_receivedChequeKey p q : balanceKey p ≠ receivedChequeKey q.
Proof. unfold balanceKey, receivedChequeKey. simpl. discriminate. Qed.

Lemma sentChequeKey_receivedChequeKey p q : sentChequeKey p ≠ receivedChequeKey q.
Proof. unfold sentChequeKey, receivedChequeKey. simpl. discriminate. Qed.

Lemma balanceKey_inj p q : ID_String p ≠ ID_String q → balanceKey p ≠ balanceKey q.
Proof. intros Hne Heq. apply Hne. by apply (key_app_inj balancePrefix). Qed.

Lemma sentChequeKey_inj p q : ID_String p ≠ ID_String q → sentChequeKey p ≠ sentChequeKey q.
Proof. intros Hne Heq. apply Hne. by apply (key_app_inj sentChequePrefix). Qed.

Lemma same_for_refl q s : same_for q s s.
Proof. by unfold same_for. Qed.

Lemma same_for_trans q s1 s2 s3 : same_for q s1 s2 → same_for q s2 s3 → same_for q s1 s3.
Proof. unfold same_for. intros (?&?&?&?&?) (?&?&?&?&?). repeat split; congruence. Qed.

(** A state that differs from [s] for [peer] only. *)
Lemma same_for_intro peer q s s' bs cs :
  ID_String q ≠ ID_String peer →
  (balances s' = balances s ∨ balances s' = <[peer := bs]> (balances s)) →
  (cheques s' = cheques s ∨ cheques s' = <[peer := cs]> (cheques s)) →
  (∀ k, k ≠ balanceKey peer → k ≠ sentChequeKey peer →
        data (stateStore s') !! k = data (stateStore s) !! k) →
  same_for q s s'.
Proof.
  intros Hne Hb Hc Hd.
  assert (q ≠ peer) as Hq by congruence.
  assert (peer ≠ q) as Hq' by congruence.
  repeat split.
  - destruct Hb as [-> | ->]; [done|]. by rewrite lookup_insert_ne.
  - destruct Hc as [-> | ->]; [done|]. by rewrite lookup_insert_ne.
  - apply Hd; [by apply balanceKey_inj|apply balanceKey_sentChequeKey].
  - apply Hd; [apply not_eq_sym, balanceKey_sentChequeKey|by apply sentChequeKey_inj].
  - apply Hd; apply not_eq_sym; [apply balanceKey_receivedChequeKey|apply sentChequeKey_receivedChequeKey].
Qed.

Lemma sendCheque_same_for peer q s r s' :
  ID_String q ≠ ID_String peer →
  sendCheque peer s = Some (r, s') → same_for q s s'.
Proof.
  intros Hne Hsend.
  destruct (sendCheque_cases s peer)
    as (r' & s2 & evs & Hsend' & _ & _ & _ & _ & _ & Hc).
  rewrite Hsend in Hsend'. injection Hsend' as <- <-.
  destruct Hc as [(e & w & _ & _ & _ & Hb & Hd & Hch)
                 |(amt & w & last & st & c & _ & Hlast & _ & _ & Hc)].
  { apply (same_for_intro peer q s s' 0 None); auto. intros. by rewrite Hd. }
  destruct Hc as [(e & _ & _ & Hb & Hd & Hch)
                 |[(msg & _ & _ & Hb & Hd & Hch & _)|(w' & _ & _ & Hb & Hch & Hc)]].
  - apply (same_for_intro peer q s s' 0 last); auto. intros. by rewrite Hd.
  - apply (same_for_intro peer q s s' 0 (Some c)); auto. intros. by rewrite Hd.
  - eapply (same_for_intro peer q s s' _ (Some c)); eauto.
    intros k Hk1 Hk2. destruct Hc as [[_ ->]|(_ & -> & _)];
      rewrite ?lookup_insert_ne by done; done.
Qed.

(** X2: [Add] for one peer leaves every other peer alone.  Whatever the call
    does (reject, account, settle, fail), the cached balance, the cached
    cheque and the three store entries of a peer with a different string form
    are what they were. *)
Theorem Add_leaves_other_peers peer q s amount r s' :
  ID_String q ≠ ID_String peer →
  Add amount peer s = Some (r, s') →
  same_for q s s'.
Proof.
  intros Hne HAdd.
  destruct (Add_cases s amount peer)
    as (e0 & b & st0 & r' & s2 & evs' & _ & HAdd' & _ & _ & _ & _ & _ & Hcases).
  rewrite HAdd in HAdd'. injection HAdd' as <- <-.
  destruct Hcases as [(_ & _ & _ & _ & Hb & Hd & Hch)|[_ Hcases]].
  { eapply (same_for_intro peer q s s' _ None); eauto. intros. by rewrite Hd. }
  destruct Hcases as [(_ & _ & _ & Hb & Hd & Hch)|[_ Hcases]].
  { eapply (same_for_intro peer q s s' _ None); eauto. intros. by rewrite Hd. }
  destruct Hcases as [(msg & _ & _ & _ & Hb & Hd & Hch & _)
                     |[(_ & _ & _ & _ & Hb & Hd & Hch)|(_ & _ & Hsend)]].
  { eapply (same_for_intro peer q s s' _ None); eauto. intros. by rewrite Hd. }
  { eapply (same_for_intro peer q s s' _ None); eauto. intros. rewrite Hd.
    by rewrite lookup_insert_ne. }
  destruct Hsend as (s1 & s2 & evs2 & Hb1 & Hd1 & Hch1 & _ & _ & Hsend & _ & _
                     & Hb & Hst & Hch & _).
  apply (same_for_trans q s s1 s').
  - eapply (same_for_intro peer q s s1 _ None); eauto. intros. rewrite Hd1.
    by rewrite lookup_insert_ne.
  - apply (same_for_trans q s1 s2 s'); [by apply (sendCheque_same_for peer _ _ r)|].
    unfold same_for. rewrite Hb, Hst, Hch. done.
Qed.

End Isolation.

(** ** Rejected peers, failed reads and the cheque of a call *)

Section Rejection.
Context `{Ext : Externals}.

(** X3: a peer at or above the disconnect threshold stays there.  Any
    sequence of [Add] calls for it, whatever the amounts and their signs,
    leaves the balance and the store as they are; each call only logs the
    rejection. *)
Theorem Add_rejects_forever peer s amounts s' b :
  held_balance s peer = Some b →
  disconnectThreshold s <= b →
  AddSeq peer s amounts s' →
  held_balance s' peer = Some b ∧
  data (stateStore s') = data (stateStore s) ∧
  trace s' = trace s ++ replicate (length amounts) (disconnecting peer (disconnectThreshold s)).
Proof.
  intros Hheld Hthr Hseq. revert Hheld Hthr.
  induction Hseq as [s|s amount amounts r s1 s2 HAdd Hseq IH]; intros Hheld Hthr.
  { simpl. by rewrite app_nil_r. }
  destruct (Add_rejects s amount peer b Hheld Hthr)
    as (s1' & HAdd' & Htr & _ & Hdata & Hd & Hheld1).
  rewrite HAdd in HAdd'. injection HAdd' as -> ->.
  destruct IH as (Hh & Hdata2 & Htr2); [done|by rewrite Hd|].
  split; [done|]. split; [congruence|].
  rewrite Htr2, Htr, Hd, <- app_assoc. done.
Qed.

Lemma decode_int64_error r b e : decode_int64 r = (b, Some e) → b = 0.
Proof. destruct r as [e'|[z|c]]; simpl; congruence. Qed.

(** X4: a balance read that fails for another reason than a missing key
    leaves zero in the cache.  [Add] returns the store's error and the store is
    untouched, but the ledger now answers zero for the peer, and the next
    accepted call writes its own amount over the stored balance. *)
Theorem failed_read_resets_balance s amount peer e :
  balances s !! peer = None →
  (decode_int64 (Store_Get (balanceKey peer) (stateStore s)).1).2 = Some e →
  e ≠ ErrNotFound →
  ∃ s1,
    Add amount peer s = Some (Some e, s1) ∧
    data (stateStore s1) = data (stateStore s) ∧
    held_balance s1 peer = Some 0 ∧
    ∀ amount',
      faults (stateStore s1) = [] →
      0 < disconnectThreshold s →
      wrap64 (- paymentThreshold s) < wrap64 amount' →
      ∃ s2,
        Add amount' peer s1 = Some (None, s2) ∧
        data (stateStore s2) !! balanceKey peer = Some (VInt64 (wrap64 amount')).
Proof.
  intros Hnone Hdec Hne.
  destruct (Add_cases s amount peer)
    as (e0 & b & st0 & r & s1 & evs & Hl & HAdd & _ & Hp & Hd & _ & _ & Hcases).
  assert (e0 = Some e ∧ b = 0) as [-> ->].
  { destruct Hl as [(Hb & _)|(_ & _ & Hdd)]; [congruence|].
    rewrite <- Hdd in Hdec. simpl in Hdec. subst e0. split; [done|].
    by eapply decode_int64_error. }
  destruct Hcases as [(_ & _ & -> & _ & Hb & Hdata & _)|[[?|?] _]]; [|done|congruence].
  exists s1. split; [done|]. split; [done|].
  assert (held_balance s1 peer = Some 0) as Hheld.
  { apply held_balance_cached. rewrite Hb. apply lookup_insert_eq. }
  split; [done|]. intros amount' Hrel Hthr Hpay.
  destruct (Add_cases s1 amount' peer)
    as (e0 & b & st0' & r & s2 & evs2 & Hl2 & HAdd2 & _ & _ & _ & _ & _ & Hcases).
  destruct (held_loaded _ _ _ _ _ _ Hheld Hl2) as [-> He].
  exists s2.
  destruct Hcases as [(He1 & He2 & _)|[_ Hcases]].
  { destruct He as [-> | ->]; done. }
  rewrite Hd, Hp in Hcases. cbv zeta in Hcases. rewrite Z.add_0_l in Hcases.
  destruct Hcases as [(Hge & _)|[_ Hcases]]; [lia|].
  destruct Hcases as [(msg & _ & _ & _ & _ & _ & _ & Hf)
                     |[(_ & _ & -> & _ & _ & Hdata2 & _)|(Hle & _)]].
  - done.
  - split; [done|]. rewrite Hdata2. apply lookup_insert_eq.
  - lia.
Qed.

Lemma honey_abs nb : in_int64 nb → nb <= 0 → wrapu64 (wrap64 (- nb)) = - nb.
Proof.
  intros Hr Hle. unfold in_int64 in Hr.
  destruct (decide (nb = - 2 ^ 63)) as [->|Hne]; [reflexivity|].
  rewrite wrap64_small by (unfold in_int64; lia).
  apply wrapu64_small. unfold in_uint64. lia.
Qed.

(** X5: at most one cheque per call, for the whole debt.  When an [Add] call
    creates a cheque (the payment threshold being a non-negative [int64]), it
    creates exactly one, the cache holds it when the call returns, its honey
    is the negated balance the call reached, and that is at least the payment
    threshold. *)
Theorem Add_issued_cheque s amount peer b r s' evs :
  0 <= paymentThreshold s < 2 ^ 63 →
  held_balance s peer = Some b →
  Add amount peer s = Some (r, s') →
  trace s' = trace s ++ evs →
  issued_serials evs ≠ [] →
  ∃ c,
    cheque_at s' peer = Some c ∧
    issued_serials evs = [Serial c] ∧
    Honey c = - wrap64 (b + amount) ∧
    paymentThreshold s <= Honey c.
Proof.
  intros Hpay Hheld HAdd Htr Hissued.
  destruct (Add_cases s amount peer)
    as (e0 & b' & st0 & r' & s2 & evs' & Hl & HAdd' & Htr' & _ & _ & _ & _ & Hcases).
  rewrite HAdd in HAdd'. injection HAdd' as <- <-.
  rewrite Htr in Htr'. apply app_inv_head in Htr' as <-.
  destruct (held_loaded _ _ _ _ _ _ Hheld Hl) as [-> _].
  destruct Hcases as [(_ & _ & _ & -> & _)|[_ Hcases]]; [done|].
  destruct Hcases as [(_ & _ & -> & _)|[_ Hcases]]; [done|].
  destruct Hcases as [(msg & _ & _ & -> & _)|[(_ & _ & _ & -> & _)|(Hle & _ & Hsend)]];
    [done..|].
  destruct Hsend as (s1 & s2 & evs2 & Hb1 & _ & _ & _ & _ & Hsend & Htr2 & ->
                     & _ & _ & Hch & _).
  assert (balance_at s1 peer = wrap64 (b + amount)) as Hat.
  { unfold balance_at. rewrite Hb1, lookup_insert_eq. done. }
  assert (issued_serials
            (accounted peer (wrap64 (b + amount)) :: settling peer (paymentThreshold s)
             :: evs2 ++ [match r with
                         | Some e => cheque_failed peer e
                         | None => cheque_sent peer
                         end])
          = issued_serials evs2) as Heq.
  { change (?a :: ?b :: ?l ++ ?f) with ([a; b] ++ l ++ f).
    rewrite !issued_serials_app. simpl. destruct r; simpl; apply app_nil_r. }
  rewrite Heq in *.
  destruct (sendCheque_cases s1 peer)
    as (r' & s2' & evs2' & Hsend' & Htr2' & _ & _ & _ & _ & Hc).
  rewrite Hsend in Hsend'. injection Hsend' as <- <-.
  rewrite Htr2 in Htr2'. apply app_inv_head in Htr2' as <-.
  rewrite Hat in Hc.
  assert (wrapu64 (wrap64 (- wrap64 (b + amount))) = - wrap64 (b + amount)
          ∧ paymentThreshold s <= - wrap64 (b + amount)) as [Hhoney Hge].
  { pose proof (wrap64_range (b + amount)) as Hr.
    assert (wrap64 (- paymentThreshold s) = - paymentThreshold s) as Hw.
    { apply wrap64_small. unfold in_int64. lia. }
    rewrite Hw in Hle. split; [apply honey_abs; [done|lia]|lia]. }
  destruct Hc as [(e & w & _ & _ & -> & _)
                 |(amt & w & last & st & c & _ & _ & _ & Hh & Hc)]; [done|].
  destruct Hc as [(e & _ & -> & _)
                 |[(msg & _ & -> & _ & _ & Hch2 & _)|(w' & _ & _ & _ & Hch2 & Hc)]]; [done| |].
  - exists c. unfold cheque_at. rewrite Hch, Hch2, lookup_insert_eq.
    repeat split; [congruence|]. rewrite Hh, Hhoney. done.
  - exists c. unfold cheque_at. rewrite Hch, Hch2, lookup_insert_eq.
    split; [done|]. split; [by destruct Hc as [[-> _]|[-> _]]|].
    rewrite Hh, Hhoney. done.
Qed.

(** X13: a peer the ledger has never seen.  On a store that does not fail,
    [Balance] returns zero with [state.ErrNotFound] and caches nothing,
    while [Add] starts from zero for that peer: after a first accepted call
    [Balance] returns the amount and no error, and the store holds it. *)
Theorem Balance_unknown_peer s peer :
  faults (stateStore s) = [] →
  balances s !! peer = None →
  data (stateStore s) !! balanceKey peer = None →
  Balance peer s = Some ((0, Some ErrNotFound), s) ∧
  balances s !! peer = None ∧
  ∀ amount,
    0 < disconnectThreshold s →
    wrap64 (- paymentThreshold s) < wrap64 amount →
    ∃ s', Add amount peer s = Some (None, s') ∧
          Balance peer s' = Some ((wrap64 amount, None), s') ∧
          data (stateStore s') !! balanceKey peer = Some (VInt64 (wrap64 amount)).
Proof.
  intros Hrel Hnone Hdata.
  assert (Balance peer s = Some ((0, Some ErrNotFound), s)) as HB.
  { unfold Balance, bind, gets, ret, store_op. rewrite Hnone.
    rewrite Store_Get_reliable by done. rewrite Hdata. simpl. by destruct s. }
  split; [done|]. split; [done|]. intros amount Hthr Hpay.
  assert (held_balance s peer = Some 0) as Hheld.
  { unfold held_balance. by rewrite HB. }
  destruct (Add_cases s amount peer)
    as (e0 & b & st0 & r & s' & evs & Hl & HAdd & _ & _ & _ & _ & _ & Hcases).
  destruct (held_loaded _ _ _ _ _ _ Hheld Hl) as [-> He].
  cbv zeta in Hcases. rewrite Z.add_0_l in Hcases.
  destruct Hcases as [(He1 & He2 & _)|[_ Hcases]].
  { destruct He as [-> | ->]; done. }
  destruct Hcases as [(Hge & _)|[_ Hcases]]; [lia|].
  destruct Hcases as [(msg & _ & _ & _ & _ & _ & _ & Hf)
                     |[(_ & _ & -> & _ & Hb & Hd & _)|(Hle & _)]]; [done| |lia].
  exists s'. split; [done|]. split.
  - unfold Balance, bind, gets, ret. rewrite Hb, lookup_insert_eq. done.
  - rewrite Hd. apply lookup_insert_eq.
Qed.

End Rejection.

(** ** What [sendCheque] records, credits and leaves alone *)

Section Settling.
Context `{Ext : Externals}.

Lemma last_sent_reload_stored s peer c :
  faults (stateStore s) = [] →
  data (stateStore s) !! sentChequeKey peer = Some (VCheque c) →
  last_sent (reload s) peer = Some (Some c).
Proof.
  intros Hrel Hdata. unfold last_sent.
  change (cheques (reload s)) with (∅ : gmap ID (option Cheque)).
  change (stateStore (reload s)) with (stateStore s).
  rewrite lookup_empty, Store_Get_reliable by done. rewrite Hdata. done.
Qed.

Lemma loaded_last_sent s peer last st last' :
  loaded_last s peer last st → last_sent s peer = Some last' → last' = last.
Proof.
  unfold last_sent. intros [[Hch _]|(Hch & _ & ->)]; rewrite Hch; [congruence|].
  destruct (decode_cheque _) as [l [[|msg]|]]; simpl; congruence.
Qed.

(** [sendCheque] on a reliable store, with a working oracle and signer. *)
Lemma sendCheque_reliable s peer amount w :
  faults (stateStore s) = [] →
  oracle_GetPrice (wrapu64 (wrap64 (- balance_at s peer))) (world s) = (inr amount, w) →
  (∀ c, (cheque_Sign c (privateKey (owner s))).2 = None) →
  ∃ c last st s',
    loaded_last s peer last st ∧ follows c last amount ∧
    sendCheque peer s = Some ((peer_Send peer (mkEmitChequeMsg c) w).1, s') ∧
    world s' = (peer_Send peer (mkEmitChequeMsg c) w).2 ∧
    balances s' = <[peer := wrap64 (balance_at s peer + wrap64 (Amount c))]> (balances s) ∧
    cheques s' = <[peer := Some c]> (cheques s) ∧
    stateStore s'
    = mkStore (<[balanceKey peer := VInt64 (wrap64 (balance_at s peer + wrap64 (Amount c)))]>
                 (<[sentChequeKey peer := VCheque c]> (data (stateStore s)))) [] ∧
    trace s' = trace s ++ [sending c; resetting peer (wrap64 (Amount c));
                           accounted peer (wrap64 (balance_at s peer + wrap64 (Amount c)))].
Proof.
  intros Hrel Ho Hsign.
  destruct (sendCheque_settles s peer amount w Hrel Ho Hsign)
    as (c & last & st & s' & Hl & Hf & _ & Hrest).
  exists c, last, st, s'. done.
Qed.

(** X6: the cheque is recorded before it is sent.  On a store that does not
    fail, with a working oracle and signer, [sendCheque] returns whatever the
    transport returns, failure included; in both cases the cheque is cached
    and stored, a new session reads it back as the last one sent, and the
    balance is credited in memory and in the store. *)
Theorem sendCheque_records_before_sending s peer amount w :
  faults (stateStore s) = [] →
  oracle_GetPrice (wrapu64 (wrap64 (- balance_at s peer))) (world s) = (inr amount, w) →
  (∀ c, (cheque_Sign c (privateKey (owner s))).2 = None) →
  ∃ c s',
    sendCheque peer s = Some ((peer_Send peer (mkEmitChequeMsg c) w).1, s') ∧
    world s' = (peer_Send peer (mkEmitChequeMsg c) w).2 ∧
    cheque_at s' peer = Some c ∧
    data (stateStore s') !! sentChequeKey peer = Some (VCheque c) ∧
    last_sent (reload s') peer = Some (Some c) ∧
    balances s' !! peer = Some (wrap64 (balance_at s peer + wrap64 (Amount c))) ∧
    data (stateStore s') !! balanceKey peer
    = Some (VInt64 (wrap64 (balance_at s peer + wrap64 (Amount c)))).
Proof.
  intros Hrel Ho Hsign.
  destruct (sendCheque_reliable s peer amount w Hrel Ho Hsign)
    as (c & last & st & s' & _ & _ & Hsend & Hw & Hb & Hch & Hst & _).
  exists c, s'. split; [done|]. split; [done|].
  assert (balanceKey peer ≠ sentChequeKey peer) as Hne by apply balanceKey_sentChequeKey.
  assert (data (stateStore s') !! sentChequeKey peer = Some (VCheque c)) as Hstored.
  { rewrite Hst. simpl. by rewrite lookup_insert_ne, lookup_insert_eq. }
  unfold cheque_at. rewrite Hch, Hb, !lookup_insert_eq. simpl.
  split; [done|]. split; [done|]. split.
  - apply last_sent_reload_stored; [by rewrite Hst|done].
  - split; [done|]. rewrite Hst. simpl. by rewrite lookup_insert_eq.
Qed.

(** X7: what [sendCheque] credits.  On a store that does not fail, with a
    working oracle and signer, the balance is credited with [int64] of the
    cheque's cumulative amount: the converted amount for a first cheque, the
    last cheque's amount plus the converted amount afterwards.  A first cheque
    whose converted amount is the honey itself brings the balance to zero. *)
Theorem sendCheque_credit s peer amount w last :
  faults (stateStore s) = [] →
  oracle_GetPrice (wrapu64 (wrap64 (- balance_at s peer))) (world s) = (inr amount, w) →
  (∀ c, (cheque_Sign c (privateKey (owner s))).2 = None) →
  last_sent s peer = Some last →
  let credit :=
    wrap64 (match last with None => amount | Some l => wrapu64 (Amount l + amount) end) in
  ∃ r s' evs,
    sendCheque peer s = Some (r, s') ∧
    trace s' = trace s ++ evs ∧
    credited evs = credit ∧
    balances s' !! peer = Some (wrap64 (balance_at s peer + credit)) ∧
    (last = None → amount = wrapu64 (wrap64 (- balance_at s peer)) →
     balances s' !! peer = Some 0).
Proof.
  intros Hrel Ho Hsign Hlast credit.
  destruct (sendCheque_reliable s peer amount w Hrel Ho Hsign)
    as (c & last' & st & s' & Hl & Hf & Hsend & _ & Hb & _ & _ & Htr).
  apply (loaded_last_sent _ _ _ _ _ Hl) in Hlast. subst last'.
  assert (wrap64 (Amount c) = credit) as Hc.
  { unfold credit. destruct last as [l|]; destruct Hf as [_ ->]; done. }
  rewrite Hc in *.
  eexists _, s', _. split; [done|]. split; [done|]. split.
  { unfold credited. simpl. lia. }
  rewrite Hb, lookup_insert_eq. split; [done|].
  intros -> ->. f_equal. unfold credit.
  rewrite wrap64_wrapu64, !wrap64_add_r, Z.add_opp_diag_r. done.
Qed.


(** [sendCheque] when the cheque is created but the store refuses it. *)
Lemma sendCheque_unstored s peer amount w msg fs last :
  cheques s !! peer = Some last →
  faults (stateStore s) = Some msg :: fs →
  oracle_GetPrice (wrapu64 (wrap64 (- balance_at s peer))) (world s) = (inr amount, w) →
  (∀ c, (cheque_Sign c (privateKey (owner s))).2 = None) →
  ∃ c s',
    sendCheque peer s = Some (Some (ErrorString msg), s') ∧
    follows c last amount ∧
    trace s' = trace s ++ [sending c; storing_failed (ErrorString msg)] ∧
    world s' = w ∧ owner s' = owner s ∧
    balances s' = balances s ∧ cheques s' = <[peer := Some c]> (cheques s) ∧
    stateStore s' = mkStore (data (stateStore s)) fs.
Proof.
  intros Hch Hf Ho Hsign.
  destruct (createCheque_cases s peer) as
    [(e & w' & Ho' & _)|(amount' & w' & last' & st & c & err & Ho' & Hlast & Hfol & _ & -> & Hc)];
    rewrite Ho in Ho'; [done|]. injection Ho' as <- <-.
  destruct Hlast as [[Hch' ->]|[Hch' _]]; [|congruence].
  assert (last' = last) as -> by congruence.
  exists c. unfold sendCheque, bind. rewrite Hc, Hsign.
  unfold log, modify, store_op, ret. simpl.
  unfold Store_Put, Store_next. rewrite Hf. simpl.
  eexists. split; [reflexivity|]. simpl. split; [done|].
  rewrite <- !app_assoc, insert_insert_eq. done.
Qed.

(** X18: a cheque the store refuses still counts as the last one.  When the
    last cheque is cached and the store fails the write of the new one,
    [sendCheque] returns the store's error: the cheque has been announced and
    cached, nothing is credited and the transport is not called.  The next
    cheque takes the following serial, and its cumulative amount includes the
    amount of the cheque that was never sent. *)
Theorem unstored_cheque_counts s peer amount w msg last :
  cheques s !! peer = Some last →
  faults (stateStore s) = [Some msg] →
  oracle_GetPrice (wrapu64 (wrap64 (- balance_at s peer))) (world s) = (inr amount, w) →
  (∀ c, (cheque_Sign c (privateKey (owner s))).2 = None) →
  ∃ c s' evs,
    sendCheque peer s = Some (Some (ErrorString msg), s') ∧
    follows c last amount ∧
    trace s' = trace s ++ evs ∧ issued_serials evs = [Serial c] ∧ credited evs = 0 ∧
    world s' = w ∧
    balances s' = balances s ∧ data (stateStore s') = data (stateStore s) ∧
    cheque_at s' peer = Some c ∧
    ∀ amount2 w2,
      oracle_GetPrice (wrapu64 (wrap64 (- balance_at s peer))) w = (inr amount2, w2) →
      ∃ c2 s2,
        sendCheque peer s' = Some ((peer_Send peer (mkEmitChequeMsg c2) w2).1, s2) ∧
        Serial c2 = wrapu64 (Serial c + 1) ∧
        Amount c2 = wrapu64 (Amount c + amount2) ∧
        data (stateStore s2) !! sentChequeKey peer = Some (VCheque c2).
Proof.
  intros Hch Hf Ho Hsign.
  destruct (sendCheque_unstored s peer amount w msg [] last Hch Hf Ho Hsign)
    as (c & s' & Hsend & Hfol & Htr & Hw & Hown & Hb & Hc & Hst).
  exists c, s', [sending c; storing_failed (ErrorString msg)].
  split; [done|]. split; [done|]. split; [done|].
  split; [done|]. split; [done|]. split; [done|]. split; [done|].
  split; [by rewrite Hst|].
  split; [unfold cheque_at; by rewrite Hc, lookup_insert_eq|].
  intros amount2 w2 Ho2.
  assert (balance_at s' peer = balance_at s peer) as Hat by (unfold balance_at; by rewrite Hb).
  destruct (sendCheque_reliable s' peer amount2 w2)
    as (c2 & last2 & st2 & s2 & Hl2 & Hf2 & Hsend2 & _ & _ & _ & Hst2 & _).
  { by rewrite Hst. }
  { by rewrite Hat, Hw. }
  { by rewrite Hown. }
  exists c2, s2. split; [done|].
  destruct Hl2 as [[Hc2 _]|[Hc2 _]]; rewrite Hc, lookup_insert_eq in Hc2; [|done].
  injection Hc2 as <-. destruct Hf2 as [-> ->]. split; [done|]. split; [done|].
  rewrite Hst2. simpl. rewrite lookup_insert_ne by apply balanceKey_sentChequeKey.
  apply lookup_insert_eq.
Qed.

(** X9: a received cheque that is saved is the one loaded back, as long as
    the store serves the read; saving it touches no balance and no sent
    cheque, in memory or in the store. *)
Theorem received_cheque_round_trip s peer cheque s1 :
  saveLastReceivedCheque peer cheque s = Some (None, s1) →
  (Store_next (stateStore s1)).1 = None →
  (∃ s2, loadLastReceivedCheque peer s1 = Some (Some cheque, s2)) ∧
  balances s1 = balances s ∧ cheques s1 = cheques s ∧
  ∀ q, data (stateStore s1) !! balanceKey q = data (stateStore s) !! balanceKey q ∧
       data (stateStore s1) !! sentChequeKey q = data (stateStore s) !! sentChequeKey q.
Proof.
  unfold saveLastReceivedCheque, loadLastReceivedCheque, store_op, bind, ret.
  intros Hsave Hnext.
  destruct (Store_Put_cases (receivedChequeKey peer) (VCheque cheque) (stateStore s))
    as [(msg & fs & Hf & Hput)|(fs & Hput & _)]; rewrite Hput in Hsave; [done|].
  injection Hsave as <-. simpl in *. split.
  - unfold Store_Get. destruct (Store_next _) as [f st'] eqn:Hn. simpl in Hnext. subst f.
    assert (data st' = <[receivedChequeKey peer := VCheque cheque]> (data (stateStore s)))
      as ->.
    { revert Hn. unfold Store_next. simpl. destruct fs; intros ?; by simplify_eq. }
    rewrite lookup_insert_eq. simpl. eauto.
  - split; [done|]. split; [done|]. intros q.
    assert (receivedChequeKey peer ≠ balanceKey q) by (unfold receivedChequeKey, balanceKey; simpl; discriminate).
    assert (receivedChequeKey peer ≠ sentChequeKey q) by (unfold receivedChequeKey, sentChequeKey; simpl; discriminate).
    by rewrite !lookup_insert_ne.
Qed.

End Settling.

(** ** The peers and the balances the ledger lists *)

Section Listing.
Context `{Ext : Externals}.

Lemma collectMemoryPeers_known (bals : gmap ID Z) p :
  (collectMemoryPeers bals).2 !! p = None ↔ p ∉ dom bals.
Proof.
  destruct (collectMemoryPeers_spec bals) as [_ Hknown].
  rewrite <- Hknown, eq_None_not_Some. done.
Qed.

Lemma appendStorePeers_decoded (knownPeers : gmap ID bool) keys peers :
  appendStorePeers knownPeers keys peers
  = ids ← mapM (λ key, keyToID key balancePrefix) keys;
    Some (peers ++ filter (λ p, knownPeers !! p = None) ids).
Proof.
  revert peers. induction keys as [|k keys IH]; intros peers; simpl.
  - by rewrite app_nil_r.
  - destruct (keyToID k balancePrefix) as [p|]; simpl; [|done].
    destruct (knownPeers !! p) as [mark|] eqn:Hp; rewrite IH;
      destruct (mapM _ keys) as [ids|]; simpl; try done.
    + rewrite filter_cons_False; [done|]. by rewrite Hp.
    + rewrite filter_cons_True by done. by rewrite <- app_assoc.
Qed.

Lemma BalancePeers_decoded s :
  (Store_Keys balancePrefix (stateStore s)).1.2 = None →
  BalancePeers s
  = match decoded_keys (stateStore s) with
    | Some ids =>
        Some (((map_to_list (balances s)).*1 ++ filter (λ p, p ∉ dom (balances s)) ids, None),
              set_stateStore (Store_Keys balancePrefix (stateStore s)).2 s)
    | None => None
    end.
Proof.
  intros Hkeys. unfold BalancePeers, bind, gets, store_op, ret, panic, decoded_keys.
  destruct (collectMemoryPeers_spec (balances s)) as [Hmem _].
  pose proof (collectMemoryPeers_known (balances s)) as Hknown.
  destruct (collectMemoryPeers (balances s)) as [mem known]. simpl in Hmem, Hknown.
  subst mem.
  assert ((Store_Keys balancePrefix (stateStore s)).1.1 = stored_balance_keys (stateStore s))
    as Hlist.
  { revert Hkeys. unfold Store_Keys, Store_next, stored_balance_keys.
    destruct (faults (stateStore s)) as [|[msg|] fs]; simpl; done. }
  destruct (Store_Keys balancePrefix (stateStore s)) as [[keys err] st]. simpl in *.
  subst err keys. rewrite appendStorePeers_decoded.
  destruct (mapM _ _) as [ids|]; simpl; [|done].
  do 4 f_equal. apply list_filter_iff. intros p. apply Hknown.
Qed.

(** X10: the list [BalancePeers] returns, exactly.  When the store lists its
    keys, the result is the cached peers followed by the identities of the
    stored balance keys that are not cached, in the store's order and with
    their repetitions; the call panics exactly when some key does not
    decode. *)
Theorem BalancePeers_exact s :
  (Store_Keys balancePrefix (stateStore s)).1.2 = None →
  BalancePeers s
  = match decoded_keys (stateStore s) with
    | Some ids =>
        Some (((map_to_list (balances s)).*1 ++ filter (λ p, p ∉ dom (balances s)) ids, None),
              set_stateStore (Store_Keys balancePrefix (stateStore s)).2 s)
    | None => None
    end.
Proof. apply BalancePeers_decoded. Qed.

Lemma mapM_fmap {A B} (f : A → option B) l k :
  mapM f l = Some k → f <$> l = Some <$> k.
Proof.
  revert k. induction l as [|x l IH]; intros k; simpl.
  - by intros [= <-].
  - destruct (f x) as [y|]; simpl; [|done].
    destruct (mapM f l) as [k'|]; simpl; [|done]. intros [= <-]. simpl.
    f_equal. by apply IH.
Qed.

Lemma set_stateStore_same (s : Swap) : set_stateStore (stateStore s) s = s.
Proof. by destruct s. Qed.

Lemma Balance_reliable s peer :
  faults (stateStore s) = [] →
  ∃ r, Balance peer s = Some (r, s) ∧
       (∀ b, balances s !! peer = Some b → r = (b, None)) ∧
       (∀ z, balances s !! peer = None →
             data (stateStore s) !! balanceKey peer = Some (VInt64 z) → r = (z, None)).
Proof.
  intros Hrel. unfold Balance, bind, gets, ret, store_op.
  destruct (balances s !! peer) as [b|] eqn:Hb.
  - eexists. split; [done|]. split; [by intros ? [= <-]|done].
  - rewrite Store_Get_reliable by done. rewrite set_stateStore_same.
    eexists. split; [done|]. split; [done|]. intros z _ ->. done.
Qed.

Lemma held_balance_Balance s peer b s' :
  Balance peer s = Some ((b, None), s') → held_balance s peer = Some b.
Proof. unfold held_balance. by intros ->. Qed.

(** The loop of [Balances] when every read succeeds. *)
Lemma collectBalances_reliable s peers :
  faults (stateStore s) = [] →
  (∀ p, p ∈ peers → ∃ b, Balance p s = Some ((b, None), s)) →
  ∀ collected, ∃ m,
    collectBalances peers collected s = Some ((m, None), s) ∧
    ∀ p b, m !! p = Some b ↔
           (p ∈ peers ∧ held_balance s p = Some b) ∨
           ((¬ p ∈ peers) ∧ (collected !! p) = Some b).
Proof.
  intros Hrel. induction peers as [|q peers IH]; intros Hall collected.
  - exists collected. split; [done|]. intros p b. set_solver.
  - destruct (Hall q) as [bq Hq]; [set_solver|].
    destruct (IH (λ p Hp, Hall p (list_elem_of_further _ _ _ Hp)) (<[q := bq]> collected))
      as (m & Hm & Hlook).
    exists m. simpl. unfold bind. rewrite Hq. split; [done|].
    intros p b. rewrite Hlook, elem_of_cons.
    pose proof (held_balance_Balance _ _ _ _ Hq) as Hhq.
    destruct (decide (p = q)) as [->|Hne].
    + rewrite lookup_insert_eq. split.
      * intros [[? ?]|[? [= <-]]]; left; eauto.
      * intros [[_ Hh]|[Hnot _]]; [|exfalso; apply Hnot; by left].
        destruct (decide (q ∈ peers)); [left; eauto|right].
        split; [done|]. congruence.
    + rewrite lookup_insert_ne by done. naive_solver.
Qed.

(** X11: [Balances] on a store that does not fail, whose balance keys decode
    to the peers they were built for and hold integers: it returns no error
    and leaves the ledger as it is, and the map holds exactly the cached and
    the stored peers, each with the balance [Balance] reports. *)
Theorem Balances_correct s :
  faults (stateStore s) = [] →
  Forall balance_key_ok (stored_balance_keys (stateStore s)) →
  Forall (λ k, ∃ z, data (stateStore s) !! k = Some (VInt64 z))
         (stored_balance_keys (stateStore s)) →
  ∃ m,
    Balances s = Some ((m, None), s) ∧
    ∀ p b, m !! p = Some b ↔
           (p ∈ dom (balances s) ∨ Some p ∈ store_peers (stateStore s)) ∧
           held_balance s p = Some b.
Proof.
  intros Hrel Hok Hint.
  assert ((Store_Keys balancePrefix (stateStore s)).1.2 = None ∧
          (Store_Keys balancePrefix (stateStore s)).2 = stateStore s) as [Hkeys Hst].
  { unfold Store_Keys, Store_next. by rewrite Hrel. }
  pose proof (BalancePeers_decoded s Hkeys) as Hpeers.
  rewrite Hst, set_stateStore_same in Hpeers.
  unfold decoded_keys in Hpeers.
  destruct (mapM _ _) as [ids|] eqn:Hids.
  2:{ apply mapM_None in Hids. rewrite Forall_forall in Hok. exfalso.
      apply Exists_exists in Hids as (k & Hk & Hnone).
      destruct (Hok k Hk) as (p & Hp & _). congruence. }
  pose proof (mapM_fmap _ _ _ Hids) as Hfmap.
  assert (∀ p, p ∈ ids ↔ Some p ∈ store_peers (stateStore s)) as Hin.
  { intros p. unfold store_peers. rewrite Hfmap. symmetry. apply (list_elem_of_fmap_inj Some). }
  assert (∀ p, p ∈ (map_to_list (balances s)).*1 ↔ p ∈ dom (balances s)) as Hmem.
  { intros p. rewrite elem_of_dom, list_elem_of_fmap. split.
    - intros ([q v] & -> & Hp). apply elem_of_map_to_list in Hp. by eexists.
    - intros [v Hv]. exists (p, v). split; [done|]. by apply elem_of_map_to_list. }
  unfold Balances, bind. rewrite Hpeers.
  destruct (collectBalances_reliable s
              ((map_to_list (balances s)).*1 ++ filter (λ p, p ∉ dom (balances s)) ids) Hrel)
    with (collected := (∅ : gmap ID Z)) as (m & Hm & Hlook).
  { intros p. rewrite elem_of_app, Hmem, list_elem_of_filter.
    destruct (Balance_reliable s p Hrel) as (r & HB & Hcached & Hstored).
    intros [Hp|[Hnot Hp]].
    - apply elem_of_dom in Hp as [b Hb]. exists b. by rewrite HB, (Hcached b).
    - apply Hin in Hp. unfold store_peers in Hp.
      apply list_elem_of_fmap in Hp as (k & Hdec & Hk).
      rewrite Forall_forall in Hok, Hint.
      destruct (Hok k Hk) as (p' & Hp' & Hkey). destruct (Hint k Hk) as [z Hz].
      assert (p' = p) as -> by congruence. subst k.
      exists z. rewrite HB, (Hstored z); [done| |done].
      by apply not_elem_of_dom. }
  exists m. split; [done|]. intros p b.
  rewrite Hlook, lookup_empty, elem_of_app, Hmem, list_elem_of_filter, Hin.
  split.
  - intros [[[?|[_ ?]] ?]|[_ ?]]; [auto..|done].
  - intros [[?|?] ?]; left; (split; [|done]); [by left|].
    destruct (decide (p ∈ dom (balances s))); [by left|by right].
Qed.

End Listing.

(** ** Deployment records the contract *)

Section Deploying.
Context `{Ext : Externals}.

(** [deployLoop] after [k] failures and a success, with [k] below the bound. *)
Lemma deployLoop_success opts own timeout s fs w1 addr w2 :
  fails opts own timeout (world s) fs w1 →
  succeeds opts own timeout w1 addr w2 →
  Z.of_nat (length fs) < deployRetries →
  ∃ s',
    deployLoop opts own timeout s = Some ((addr, None), s') ∧
    world s' = w2 ∧ owner s' = owner s ∧ balances s' = balances s ∧
    cheques s' = cheques s ∧ stateStore s' = stateStore s.
Proof.
  intros Hfails (ref & tx & w0 & Hd & Hw) Hlt. unfold deployLoop.
  destruct (deployLoop_from_fails opts own timeout _ _ _ Hfails
              (Z.to_nat deployRetries - length fs) 0 0 None s eq_refl)
    as (addr' & ref' & Heq).
  replace (length fs + (Z.to_nat deployRetries - length fs))%nat
    with (Z.to_nat deployRetries) in Heq by lia.
  rewrite Heq.
  destruct (Z.to_nat deployRetries - length fs)%nat as [|n] eqn:Hn; [lia|].
  rewrite deployLoop_from_S. simpl. rewrite Hd. simpl. rewrite Hw. simpl.
  eexists. split; [reflexivity|]. simpl.
  destruct (0 <? 0 + Z.of_nat (length fs)); done.
Qed.

(** [deployLoop] when as many attempts fail as the bound allows. *)
Lemma deployLoop_failure opts own timeout s fs w1 :
  fails opts own timeout (world s) fs w1 →
  Z.of_nat (length fs) = deployRetries →
  ∃ a s',
    deployLoop opts own timeout s = Some ((a, failure_error <$> last fs), s') ∧
    world s' = w1 ∧ owner s' = owner s ∧ balances s' = balances s ∧
    cheques s' = cheques s ∧ stateStore s' = stateStore s.
Proof.
  intros Hfails Hlen. unfold deployLoop.
  destruct (deployLoop_from_fails opts own timeout _ _ _ Hfails 0 0 0 None s eq_refl)
    as (addr' & ref' & Heq).
  rewrite Nat.add_0_r in Heq. replace (Z.to_nat deployRetries) with (length fs) by lia.
  rewrite Heq. simpl. eexists _, _.
  split; [do 3 f_equal; unfold error_after; by destruct (last fs)|done].
Qed.

(** X12: [deploy] records the contract only on success.  With the owner's
    address and the initial deposit as transaction options: if an attempt
    within the bound succeeds, [deploy] returns [nil] and the owner's contract
    is the deployed address; if every attempt fails, it returns the last
    error and the owner is unchanged.  Balances and store are untouched. *)
Theorem deploy_records_contract s fs w1 :
  let opts := mkTransactOpts (owner_address (owner s))
                             (wrap64 (InitialDepositAmount (params s))) in
  let own := owner_address (owner s) in
  fails opts own defaultHarddepositTimeoutDuration (world s) fs w1 →
  (∀ addr w2,
      succeeds opts own defaultHarddepositTimeoutDuration w1 addr w2 →
      Z.of_nat (length fs) < deployRetries →
      ∃ s',
        deploy s = Some (None, s') ∧
        owner s'
        = mkOwner addr (owner_address (owner s)) (privateKey (owner s))
                  (publicKey (owner s)) ∧
        world s' = w2 ∧ balances s' = balances s ∧ stateStore s' = stateStore s) ∧
  (0 < deployRetries → Z.of_nat (length fs) = deployRetries →
     ∃ e s',
       last fs = Some e ∧
       deploy s = Some (Some (failure_error e), s') ∧
       owner s' = owner s ∧
       world s' = w1 ∧ balances s' = balances s ∧ stateStore s' = stateStore s).
Proof.
  intros opts own Hfails. split.
  - intros addr w2 Hsucc Hlt.
    unfold deploy, bind, gets, log, modify. simpl. fold opts own.
    match goal with |- context [deployLoop opts own _ ?s0] =>
      destruct (deployLoop_success opts own defaultHarddepositTimeoutDuration s0
                  fs w1 addr w2 Hfails Hsucc Hlt) as (s' & -> & Hw & Ho & Hb & _ & Hst) end.
    unfold ret. simpl. eexists. split; [reflexivity|]. simpl.
    rewrite Ho. done.
  - intros Hpos Hlen.
    destruct (last fs) as [e|] eqn:Hlast.
    2:{ apply last_None in Hlast. subst fs. simpl in Hlen. lia. }
    unfold deploy, bind, gets, log, modify. simpl. fold opts own.
    match goal with |- context [deployLoop opts own _ ?s0] =>
      destruct (deployLoop_failure opts own defaultHarddepositTimeoutDuration s0
                  fs w1 Hfails Hlen) as (a & s' & -> & Hw & Ho & Hb & _ & Hst) end.
    rewrite Hlast. unfold ret. simpl. eexists e, _. split; [done|].
    split; [reflexivity|]. simpl. done.
Qed.

End Deploying.

(** ** The proximity bins of the syncer *)

Section Bins.
Import Syncer.

Lemma intRange_loop_enough n i end_ r :
  in_int64 i → in_int64 end_ → (Z.to_nat (end_ - i) <= n)%nat →
  intRange_loop n i end_ r = r ++ (wrapu64 <$> seqZ i (end_ - i)).
Proof.
  revert i r. induction n as [|n IH]; intros i r Hi He Hn.
  - simpl. rewrite seqZ_nil by lia. by rewrite app_nil_r.
  - simpl. destruct (Z.ltb_spec i end_) as [Hlt|Hge].
    + assert (wrap64 (i + 1) = i + 1) as Hw.
      { apply wrap64_small. unfold in_int64 in *. lia. }
      rewrite Hw. rewrite IH.
      2:{ unfold in_int64 in *. lia. }
      2:{ done. }
      2:{ lia. }
      rewrite (seqZ_cons i) by lia. simpl. rewrite <- app_assoc. simpl.
      do 4 f_equal; lia.
    + rewrite seqZ_nil by lia. by rewrite app_nil_r.
Qed.

Lemma intRange_seqZ start end_ :
  in_int64 start → in_int64 end_ →
  intRange start end_ = wrapu64 <$> seqZ start (end_ - start).
Proof. intros Hs He. unfold intRange. by rewrite intRange_loop_enough. Qed.

(** X14: [intRange start end] is the integers from [start] up to but not
    including [end], each converted to [uint]; it has [end - start] elements
    (none when [end <= start]), and for a non-negative [start] it holds
    exactly the numbers in that interval. *)
Theorem intRange_exact start end_ :
  in_int64 start → in_int64 end_ →
  intRange start end_ = wrapu64 <$> seqZ start (end_ - start) ∧
  length (intRange start end_) = Z.to_nat (end_ - start) ∧
  (0 <= start → ∀ b, b ∈ intRange start end_ ↔ start <= b < end_).
Proof.
  intros Hs He. pose proof (intRange_seqZ start end_ Hs He) as Heq.
  split; [done|]. rewrite Heq. split.
  - by rewrite length_fmap, length_seqZ.
  - intros H0 b. rewrite list_elem_of_fmap. split.
    + intros (i & -> & Hi). apply elem_of_seqZ in Hi.
      rewrite wrapu64_small; [lia|]. unfold in_uint64, in_int64 in *. lia.
    + intros Hb. exists b. split.
      * symmetry. apply wrapu64_small. unfold in_uint64, in_int64 in *. lia.
      * apply elem_of_seqZ. lia.
Qed.

Lemma intRange_nonneg start end_ :
  0 <= start → in_int64 end_ → intRange start end_ = seqZ start (end_ - start).
Proof.
  intros H0 He. destruct (Z.le_gt_cases end_ start) as [Hle|Hgt].
  { unfold intRange. replace (Z.to_nat (end_ - start)) with 0%nat by lia.
    simpl. by rewrite seqZ_nil by lia. }
  rewrite intRange_seqZ; [|unfold in_int64 in *; lia|done].
  rewrite <- (list_fmap_id (seqZ start (end_ - start))) at 2.
  apply list_fmap_ext. intros _ b Hb%list_elem_of_lookup_2%elem_of_seqZ. simpl.
  apply wrapu64_small. unfold in_uint64, in_int64 in *. lia.
Qed.

(** X15: the range of [syncBins] is not empty, starts at or below the peer's
    bin, ends above it and at or below [max + 1]; it is the peer's own bin when
    the peer is outside the neighbourhood depth, and all bins from the depth
    to [max] otherwise. *)
Theorem syncBins_covers_peer peerPO depth max :
  0 <= peerPO <= max → max + 1 < 2 ^ 63 → 0 <= depth →
  0 <= (syncBins peerPO depth max).1 <= peerPO ∧
  peerPO < (syncBins peerPO depth max).2 <= max + 1 ∧
  ∀ b, b ∈ bins peerPO depth max ↔
       if peerPO <? depth then b = peerPO else depth <= b <= max.
Proof.
  intros Hpo Hmax Hd. unfold bins, syncBins.
  destruct (Z.ltb_spec peerPO depth) as [Hlt|Hge]; simpl;
    rewrite wrap64_small by (unfold in_int64; lia);
    (split; [lia|]); (split; [lia|]); intros b;
    rewrite intRange_nonneg by (unfold in_int64; lia);
    rewrite elem_of_seqZ; lia.
Qed.

(** X16: [syncSubscriptionsDiff] is the difference of the two ranges.  The
    bins to sync at the new depth are the previous ones (none when there is no
    previous depth) without the bins to quit, plus the bins to subscribe; the
    bins to subscribe are new, the bins to quit are old, and neither list
    repeats a bin. *)
Theorem syncSubscriptionsDiff_correct peerPO prevDepth newDepth max :
  0 <= peerPO <= max → max + 1 < 2 ^ 63 → 0 <= newDepth →
  let prev := if prevDepth <? 0 then [] else bins peerPO prevDepth max in
  let new := bins peerPO newDepth max in
  let subBins := (syncSubscriptionsDiff peerPO prevDepth newDepth max).1 in
  let quitBins := (syncSubscriptionsDiff peerPO prevDepth newDepth max).2 in
  (∀ b, b ∈ new ↔ (b ∈ prev ∧ b ∉ quitBins) ∨ b ∈ subBins) ∧
  (∀ b, b ∈ subBins → b ∈ new ∧ b ∉ prev) ∧
  (∀ b, b ∈ quitBins → b ∈ prev ∧ b ∉ new) ∧
  NoDup subBins ∧ NoDup quitBins.
Proof.
  intros Hpo Hmax Hd. unfold syncSubscriptionsDiff, bins, syncBins.
  destruct (Z.ltb_spec prevDepth 0) as [Hinit|Hprev].
  { destruct (Z.ltb_spec peerPO newDepth); simpl;
      rewrite wrap64_small by (unfold in_int64; lia);
      rewrite intRange_nonneg by (unfold in_int64; lia);
      (repeat split; [set_solver..|apply NoDup_seqZ|constructor]). }
  destruct (Z.ltb_spec peerPO newDepth), (Z.ltb_spec peerPO prevDepth); simpl;
    rewrite ?wrap64_small by (unfold in_int64; lia);
    repeat match goal with |- context [?a <? ?b] => destruct (Z.ltb_spec a b) end; simpl;
    rewrite ?intRange_nonneg by (unfold in_int64; lia);
    (split; [|split; [|split; [|split]]]);
    try (intros b; rewrite ?elem_of_app, ?elem_of_seqZ, ?elem_of_nil; lia);
    rewrite ?NoDup_app; repeat split; try apply NoDup_seqZ; try constructor;
    intros b; rewrite ?elem_of_seqZ; lia.
Qed.

(** X17: no change, no subscription traffic.  When the depth does not
    change, or the peer is outside the neighbourhood before and after,
    [syncSubscriptionsDiff] asks for nothing and quits nothing. *)
Theorem syncSubscriptionsDiff_stable peerPO prevDepth newDepth max :
  0 <= prevDepth →
  (prevDepth = newDepth ∨ (peerPO < prevDepth ∧ peerPO < newDepth)) →
  syncSubscriptionsDiff peerPO prevDepth newDepth max = ([], []).
Proof.
  intros Hprev Hsame. unfold syncSubscriptionsDiff, syncBins.
  destruct (Z.ltb_spec prevDepth 0); [lia|].
  destruct (Z.ltb_spec peerPO newDepth), (Z.ltb_spec peerPO prevDepth); try lia; simpl;
    repeat match goal with |- context [?a <? ?b] => destruct (Z.ltb_spec a b) end;
    try lia; reflexivity.
Qed.

End Bins.

(** ** The properties above on concrete runs *)

Section MoreRuns.
Import Demo.

(** Peer 9 settles its debt; peer 7 keeps its balance, its cheque and its
    store entries. *)
Lemma Add_leaves_other_peers_witness : same_for 7 two_peers nine_settled.
Proof.
  apply (Add_leaves_other_peers 9 7 two_peers (-106) None nine_settled).
  - vm_compute. discriminate.
  - vm_compute. reflexivity.
Defined.

(** Peer 7 is owed 150; a charge of 1 and a payment of 500 change nothing. *)
Lemma Add_rejects_forever_witness :
  held_balance overdrawn_twice 7 = Some 150 ∧
  data (stateStore overdrawn_twice) = data (stateStore overdrawn) ∧
  trace overdrawn_twice
  = trace overdrawn
    ++ replicate (length [1; -500]) (disconnecting 7 (disconnectThreshold overdrawn)).
Proof.
  apply (Add_rejects_forever 7 overdrawn [1; -500] overdrawn_twice 150).
  - vm_compute. reflexivity.
  - vm_compute. discriminate.
  - apply (AddSeq_cons 7 overdrawn 1 [-500]
             (Some (ErrorString (disconnectMessage 7 100))) overdrawn_once);
      [vm_compute; reflexivity|].
    apply (AddSeq_cons 7 overdrawn_once (-500) []
             (Some (ErrorString (disconnectMessage 7 100))) overdrawn_twice);
      [vm_compute; reflexivity|].
    apply AddSeq_nil.
Defined.

(** The store holds 57 for peer 7 and fails the read. *)
Lemma failed_read_resets_balance_witness :
  ∃ s1,
    Add 5 7 failing_read = Some (Some (ErrorString "i/o error"), s1) ∧
    data (stateStore s1) = data (stateStore failing_read) ∧
    held_balance s1 7 = Some 0 ∧
    ∀ amount',
      faults (stateStore s1) = [] →
      0 < disconnectThreshold failing_read →
      wrap64 (- paymentThreshold failing_read) < wrap64 amount' →
      ∃ s2,
        Add amount' 7 s1 = Some (None, s2) ∧
        data (stateStore s2) !! balanceKey 7 = Some (VInt64 (wrap64 amount')).
Proof.
  apply (failed_read_resets_balance failing_read 5 7 (ErrorString "i/o error")).
  - vm_compute. reflexivity.
  - vm_compute. reflexivity.
  - discriminate.
Defined.

(** The call that takes peer 7 from -40 to -101 creates cheque 1 for 101. *)
Lemma Add_issued_cheque_witness :
  ∃ c,
    cheque_at settled_once 7 = Some c ∧
    issued_serials (drop (length (trace owing40)) (trace settled_once)) = [Serial c] ∧
    Honey c = - wrap64 (-40 + -61) ∧
    paymentThreshold owing40 <= Honey c.
Proof.
  apply (Add_issued_cheque owing40 (-61) 7 (-40) None settled_once
           (drop (length (trace owing40)) (trace settled_once))).
  - assert (paymentThreshold owing40 = 100) as -> by (vm_compute; reflexivity). lia.
  - vm_compute. reflexivity.
  - vm_compute. reflexivity.
  - vm_compute. reflexivity.
  - vm_compute. discriminate.
Defined.

(** The peer cannot be reached: the cheque is recorded and credited all the
    same. *)
Lemma sendCheque_records_before_sending_witness :
  ∃ c s',
    sendCheque 7 unreachable
    = Some ((peer_Send 7 (mkEmitChequeMsg c) (world unreachable)).1, s') ∧
    world s' = (peer_Send 7 (mkEmitChequeMsg c) (world unreachable)).2 ∧
    cheque_at s' 7 = Some c ∧
    data (stateStore s') !! sentChequeKey 7 = Some (VCheque c) ∧
    last_sent (reload s') 7 = Some (Some c) ∧
    balances s' !! 7 = Some (wrap64 (balance_at unreachable 7 + wrap64 (Amount c))) ∧
    data (stateStore s') !! balanceKey 7
    = Some (VInt64 (wrap64 (balance_at unreachable 7 + wrap64 (Amount c)))).
Proof.
  apply (sendCheque_records_before_sending unreachable 7 101 (world unreachable)).
  - vm_compute. reflexivity.
  - vm_compute. reflexivity.
  - intros c. reflexivity.
Defined.

(** The second cheque to peer 7: 101 is converted, 202 is credited. *)
Lemma sendCheque_credit_witness :
  ∃ r s' evs,
    sendCheque 7 owing_again = Some (r, s') ∧
    trace s' = trace owing_again ++ evs ∧
    credited evs = wrap64 (wrapu64 (Amount cheque1 + 101)) ∧
    balances s' !! 7
    = Some (wrap64 (balance_at owing_again 7 + wrap64 (wrapu64 (Amount cheque1 + 101)))) ∧
    (Some cheque1 = None → 101 = wrapu64 (wrap64 (- balance_at owing_again 7)) →
     balances s' !! 7 = Some 0).
Proof.
  apply (sendCheque_credit owing_again 7 101 (world owing_again) (Some cheque1)).
  - vm_compute. reflexivity.
  - vm_compute. reflexivity.
  - intros c. reflexivity.
  - vm_compute. reflexivity.
Defined.


(** Cheque 2 for peer 7 is refused by the store; cheque 3 is sent next. *)
Lemma unstored_cheque_counts_witness :
  ∃ c s' evs,
    sendCheque 7 full_disk = Some (Some (ErrorString "disk full"), s') ∧
    follows c (Some cheque1) 101 ∧
    trace s' = trace full_disk ++ evs ∧ issued_serials evs = [Serial c] ∧ credited evs = 0 ∧
    world s' = world full_disk ∧
    balances s' = balances full_disk ∧
    data (stateStore s') = data (stateStore full_disk) ∧
    cheque_at s' 7 = Some c ∧
    ∀ amount2 w2,
      oracle_GetPrice (wrapu64 (wrap64 (- balance_at full_disk 7))) (world full_disk)
      = (inr amount2, w2) →
      ∃ c2 s2,
        sendCheque 7 s' = Some ((peer_Send 7 (mkEmitChequeMsg c2) w2).1, s2) ∧
        Serial c2 = wrapu64 (Serial c + 1) ∧
        Amount c2 = wrapu64 (Amount c + amount2) ∧
        data (stateStore s2) !! sentChequeKey 7 = Some (VCheque c2).
Proof.
  apply (unstored_cheque_counts full_disk 7 101 (world full_disk) "disk full" (Some cheque1)).
  - vm_compute. reflexivity.
  - vm_compute. reflexivity.
  - vm_compute. reflexivity.
  - intros c. reflexivity.
Defined.

(** A cheque from peer 7 saved on a fresh node. *)
Lemma received_cheque_round_trip_witness :
  (∃ s2, loadLastReceivedCheque 7 cheque_saved = Some (Some cheque_in, s2)) ∧
  balances cheque_saved = balances fresh ∧ cheques cheque_saved = cheques fresh ∧
  ∀ q, data (stateStore cheque_saved) !! balanceKey q
       = data (stateStore fresh) !! balanceKey q ∧
       data (stateStore cheque_saved) !! sentChequeKey q
       = data (stateStore fresh) !! sentChequeKey q.
Proof.
  apply (received_cheque_round_trip fresh 7 cheque_in cheque_saved).
  - vm_compute. reflexivity.
  - vm_compute. reflexivity.
Defined.

(** Two stored keys decode to peer 7, which is not cached: it is listed
    twice. *)
Lemma BalancePeers_exact_witness :
  BalancePeers twin_keys = Some (([7; 7], None), twin_keys).
Proof.
  rewrite (BalancePeers_exact twin_keys); vm_compute; reflexivity.
Defined.

(** Peer 9 is cached and stored, peer 7 is only stored. *)
Lemma Balances_correct_witness :
  ∃ m,
    Balances two_peers = Some ((m, None), two_peers) ∧
    ∀ p b, m !! p = Some b ↔
           (p ∈ dom (balances two_peers) ∨ Some p ∈ store_peers (stateStore two_peers)) ∧
           held_balance two_peers p = Some b.
Proof.
  apply (Balances_correct two_peers).
  - vm_compute. reflexivity.
  - assert (stored_balance_keys (stateStore two_peers) = ["balance_7"; "balance_9"]) as ->
      by (vm_compute; reflexivity).
    repeat constructor; eexists; split; vm_compute; reflexivity.
  - assert (stored_balance_keys (stateStore two_peers) = ["balance_7"; "balance_9"]) as ->
      by (vm_compute; reflexivity).
    repeat constructor; eexists; vm_compute; reflexivity.
Defined.

(** Two attempts fail, the third deploys the contract at 4242. *)
Lemma deploy_records_contract_witness :
  ∃ s',
    deploy two_failures = Some (None, s') ∧
    owner s' = mkOwner 4242 (owner_address (owner two_failures))
                 (privateKey (owner two_failures)) (publicKey (owner two_failures)) ∧
    world s' = env0 ∧ balances s' = balances two_failures ∧
    stateStore s' = stateStore two_failures.
Proof.
  apply (proj1 (deploy_records_contract two_failures
                  [SubmitFailed (ErrorString "deploy failed, left 1");
                   SubmitFailed (ErrorString "deploy failed, left 0")] env0
                  ltac:(eapply fails_submit; [vm_compute; reflexivity|];
                        eapply fails_submit; [vm_compute; reflexivity|];
                        apply fails_nil))
           4242 env0).
  - exists (Some 1), 7, env0. split; vm_compute; reflexivity.
  - vm_compute. reflexivity.
Defined.

(** A fresh node and peer 7. *)
Lemma Balance_unknown_peer_witness :
  Balance 7 fresh = Some ((0, Some ErrNotFound), fresh) ∧
  balances fresh !! 7 = None ∧
  ∀ amount,
    0 < disconnectThreshold fresh →
    wrap64 (- paymentThreshold fresh) < wrap64 amount →
    ∃ s', Add amount 7 fresh = Some (None, s') ∧
          Balance 7 s' = Some ((wrap64 amount, None), s') ∧
          data (stateStore s') !! balanceKey 7 = Some (VInt64 (wrap64 amount)).
Proof.
  apply (Balance_unknown_peer fresh 7); vm_compute; reflexivity.
Defined.

(** The bins 3, 4 and 5. *)
Lemma intRange_exact_witness :
  Syncer.intRange 3 6 = wrapu64 <$> seqZ 3 (6 - 3) ∧
  length (Syncer.intRange 3 6) = Z.to_nat (6 - 3) ∧
  (0 <= 3 → ∀ b, b ∈ Syncer.intRange 3 6 ↔ 3 <= b < 6).
Proof. apply (intRange_exact 3 6); unfold in_int64; lia. Defined.

(** A peer in bin 3 at depth 2, with 16 as the highest bin. *)
Lemma syncBins_covers_peer_witness :
  0 <= (Syncer.syncBins 3 2 16).1 <= 3 ∧
  3 < (Syncer.syncBins 3 2 16).2 <= 16 + 1 ∧
  ∀ b, b ∈ Syncer.bins 3 2 16 ↔ if 3 <? 2 then b = 3 else 2 <= b <= 16.
Proof. apply (syncBins_covers_peer 3 2 16); lia. Defined.

(** The depth grows from 2 to 5 and leaves the peer in bin 3 outside. *)
Lemma syncSubscriptionsDiff_correct_witness :
  let prev := if 2 <? 0 then [] else Syncer.bins 3 2 16 in
  let new := Syncer.bins 3 5 16 in
  let subBins := (Syncer.syncSubscriptionsDiff 3 2 5 16).1 in
  let quitBins := (Syncer.syncSubscriptionsDiff 3 2 5 16).2 in
  (∀ b, b ∈ new ↔ (b ∈ prev ∧ b ∉ quitBins) ∨ b ∈ subBins) ∧
  (∀ b, b ∈ subBins → b ∈ new ∧ b ∉ prev) ∧
  (∀ b, b ∈ quitBins → b ∈ prev ∧ b ∉ new) ∧
  NoDup subBins ∧ NoDup quitBins.
Proof. apply (syncSubscriptionsDiff_correct 3 2 5 16); lia. Defined.

(** The depth grows from 5 to 7; the peer in bin 3 is outside both. *)
Lemma syncSubscriptionsDiff_stable_witness :
  Syncer.syncSubscriptionsDiff 3 5 7 16 = ([], []).
Proof. apply (syncSubscriptionsDiff_stable 3 5 7 16); [lia|right; lia]. Defined.

End MoreRuns.
